(** * snake-ebpf: the telemetry-to-control pipeline

    A shallow embedding of the parts of the program that the properties
    below are about:

    - [Tracer]: the kernel-resident part (the BPF program [snake.bpf.c],
      whose text follows the setup script in [scripts/verify-setup.sh]):
      six one-slot array maps holding unsigned 64-bit values, the
      [recent_events] hash map, and the five probe handlers;
    - [Control]: the userspace control loop of [main.go]: sampling the maps,
      the timed food spawn and the tick-interval computation, all carried
      out on [time.Duration], a signed 64-bit number of nanoseconds;
    - [Attach]: [attachAllKprobes] of [main.go].

    Unsigned 64-bit values are integers in [0, 2^64) with the wrap-around of
    the C and Go operations written out; [time.Duration] values are integers
    in [-2^63, 2^63) with two's-complement wrap-around. *)

From Stdlib Require Import ZArith Lia List Bool.
From stdpp Require Import base gmap strings list fin_maps.

Local Open Scope Z_scope.

(** ** Machine integers *)

Module U64.

Definition modulus : Z := 2 ^ 64.
Definition max : Z := modulus - 1.

Definition in_range (x : Z) : Prop := 0 <= x < modulus.

(** [a + b] on [__u64] / [uint64]. *)
Definition add (a b : Z) : Z := (a + b) mod modulus.

(** [a - b] on [__u64] / [uint64]. *)
Definition sub (a b : Z) : Z := (a - b) mod modulus.

End U64.

(** ** The kernel-resident tracer ([snake.bpf.c]) *)

Module Tracer.

(** The six [BPF_MAP_TYPE_ARRAY] maps have [max_entries = 1]; each is its
    single [__u64] slot.  [recent_events] is a [BPF_MAP_TYPE_HASH] from
    [__u64] seconds to [__u64] counts with [max_entries = 100]. *)
Record state : Type := mkState {
  execve_counter : Z;
  file_ops_counter : Z;
  network_counter : Z;
  process_counter : Z;
  context_switch_counter : Z;
  event_rate : Z;
  recent_events : gmap Z Z
}.

Definition array_max_entries : Z := 1.
Definition recent_events_max_entries : nat := 100.

(** [bpf_map_lookup_elem] on a one-slot array map: a pointer to the slot
    when the key is inside the array, [NULL] otherwise. *)
Definition array_lookup (slot : Z) (key : Z) : option Z :=
  if (0 <=? key) && (key <? array_max_entries) then Some slot else None.

(** [bpf_map_update_elem(&recent_events, &key, &value, BPF_ANY)]: an
    existing entry is overwritten; a new one is created unless the map
    already holds [max_entries] entries, in which case the call fails and
    the map is left as it was. *)
Definition hash_update (key value : Z) (m : gmap Z Z) : gmap Z Z :=
  match m !! key with
  | Some _ => <[key := value]> m
  | None =>
      if (size m <? recent_events_max_entries)%nat
      then <[key := value]> m
      else m
  end.

(** [bpf_map_delete_elem]: removing an absent key is a failed call whose
    result the program ignores. *)
Definition hash_delete (key : Z) (m : gmap Z Z) : gmap Z Z := delete key m.

Definition set_execve_counter (v : Z) (st : state) : state :=
  mkState v (file_ops_counter st) (network_counter st) (process_counter st)
          (context_switch_counter st) (event_rate st) (recent_events st).
Definition set_file_ops_counter (v : Z) (st : state) : state :=
  mkState (execve_counter st) v (network_counter st) (process_counter st)
          (context_switch_counter st) (event_rate st) (recent_events st).
Definition set_network_counter (v : Z) (st : state) : state :=
  mkState (execve_counter st) (file_ops_counter st) v (process_counter st)
          (context_switch_counter st) (event_rate st) (recent_events st).
Definition set_process_counter (v : Z) (st : state) : state :=
  mkState (execve_counter st) (file_ops_counter st) (network_counter st) v
          (context_switch_counter st) (event_rate st) (recent_events st).
Definition set_context_switch_counter (v : Z) (st : state) : state :=
  mkState (execve_counter st) (file_ops_counter st) (network_counter st)
          (process_counter st) v (event_rate st) (recent_events st).
Definition set_event_rate (v : Z) (st : state) : state :=
  mkState (execve_counter st) (file_ops_counter st) (network_counter st)
          (process_counter st) (context_switch_counter st) v (recent_events st).
Definition set_recent_events (m : gmap Z Z) (st : state) : state :=
  mkState (execve_counter st) (file_ops_counter st) (network_counter st)
          (process_counter st) (context_switch_counter st) (event_rate st) m.

(** [bpf_ktime_get_ns() / 1000000000] *)
Definition seconds_of (now_ns : Z) : Z := now_ns / 1000000000.

(** [update_event_rate]; [now_ns] is what [bpf_ktime_get_ns()] returns
    inside the call. *)
Definition update_event_rate (now_ns : Z) (st : state) : state :=
  let current_time := seconds_of now_ns in
  let key := 0 in
  let st1 :=
    match array_lookup (event_rate st) key with
    | Some _ =>
        match recent_events st !! current_time with
        | Some count => set_event_rate count st
        | None => set_event_rate 0 st
        end
    | None => st
    end in
  let old_time := U64.sub current_time 10 in
  set_recent_events (hash_delete old_time (recent_events st1)) st1.

(** [increment_event_bucket] *)
Definition increment_event_bucket (now_ns : Z) (st : state) : state :=
  let current_time := seconds_of now_ns in
  match recent_events st !! current_time with
  | Some count =>
      set_recent_events (<[current_time := U64.add count 1]> (recent_events st)) st
  | None =>
      let initial := 1 in
      set_recent_events (hash_update current_time initial (recent_events st)) st
  end.

(** [handle_execve]: the two helpers read the clock one after the other. *)
Definition handle_execve (t_bucket t_rate : Z) (st : state) : state :=
  let key := 0 in
  match array_lookup (execve_counter st) key with
  | Some value =>
      update_event_rate t_rate
        (increment_event_bucket t_bucket
           (set_execve_counter (U64.add value 1) st))
  | None => st
  end.

(** [handle_file_open] *)
Definition handle_file_open (t_bucket : Z) (st : state) : state :=
  let key := 0 in
  match array_lookup (file_ops_counter st) key with
  | Some value =>
      increment_event_bucket t_bucket
        (set_file_ops_counter (U64.add value 1) st)
  | None => st
  end.

(** [handle_network_connect] *)
Definition handle_network_connect (t_bucket : Z) (st : state) : state :=
  let key := 0 in
  match array_lookup (network_counter st) key with
  | Some value =>
      increment_event_bucket t_bucket
        (set_network_counter (U64.add value 1) st)
  | None => st
  end.

(** [handle_process_fork] *)
Definition handle_process_fork (t_bucket : Z) (st : state) : state :=
  let key := 0 in
  match array_lookup (process_counter st) key with
  | Some value =>
      increment_event_bucket t_bucket
        (set_process_counter (U64.add value 1) st)
  | None => st
  end.

(** [handle_context_switch] *)
Definition handle_context_switch (st : state) : state :=
  let key := 0 in
  match array_lookup (context_switch_counter st) key with
  | Some value =>
      if value mod 100 =? 0
      then set_context_switch_counter (U64.add value 100) st
      else set_context_switch_counter (U64.add value 1) st
  | None => st
  end.

(** One firing of a probe, with the clock readings it makes. *)
Inductive probe : Type :=
| Execve (t_bucket t_rate : Z)
| FileOpen (t_bucket : Z)
| NetworkConnect (t_bucket : Z)
| ProcessFork (t_bucket : Z)
| ContextSwitch.

Definition fire (p : probe) (st : state) : state :=
  match p with
  | Execve t_bucket t_rate => handle_execve t_bucket t_rate st
  | FileOpen t_bucket => handle_file_open t_bucket st
  | NetworkConnect t_bucket => handle_network_connect t_bucket st
  | ProcessFork t_bucket => handle_process_fork t_bucket st
  | ContextSwitch => handle_context_switch st
  end.

(** A sequence of firings, oldest first. *)
Definition run (ps : list probe) (st : state) : state :=
  fold_left (fun s p => fire p s) ps st.

(** [n] firings of the context-switch probe in a row. *)
Definition fire_context_switch (n : N) (st : state) : state :=
  N.iter n handle_context_switch st.

(** The state [loadEBPF] leaves behind: it puts 0 into each of the six
    array maps; [recent_events] starts empty. *)
Definition init_state : state := mkState 0 0 0 0 0 0 ∅.

(** Every array slot holds an unsigned 64-bit value. *)
Definition wf (st : state) : Prop :=
  U64.in_range (execve_counter st) /\
  U64.in_range (file_ops_counter st) /\
  U64.in_range (network_counter st) /\
  U64.in_range (process_counter st) /\
  U64.in_range (context_switch_counter st).

(** The counting pattern as the specification words it: the first 99
    firings each add 1, the 100th adds 100, and the pattern repeats. *)
Definition spec_pattern_increment (i : nat) : Z :=
  if (i mod 100 =? 0)%nat then 100 else 1.

Definition spec_pattern_value (n : nat) : Z :=
  fold_left (fun acc i => acc + spec_pattern_increment i) (seq 1 n) 0.

(** The context-switch counter after one firing of
    [handle_context_switch], as a function of its value before. *)
Definition context_switch_next (value : Z) : Z :=
  if value mod 100 =? 0 then U64.add value 100 else U64.add value 1.





(** Whether a firing is one of the exec probe. *)
Definition is_execve (p : probe) : bool :=
  match p with
  | Execve _ _ => true
  | _ => false
  end.

End Tracer.

(** ** [time.Duration]: signed 64-bit nanoseconds *)

Module Duration.

Definition minDuration : Z := - 2 ^ 63.
Definition maxDuration : Z := 2 ^ 63 - 1.

Definition in_range (d : Z) : Prop := minDuration <= d <= maxDuration.

(** Two's-complement reduction into the [int64] range. *)
Definition wrap (z : Z) : Z := (z + 2 ^ 63) mod 2 ^ 64 - 2 ^ 63.

(** The conversion [time.Duration(u)] of a [uint64], and of an [int]. *)
Definition of_uint64 (u : Z) : Z := wrap u.
Definition of_int (i : Z) : Z := wrap i.

(** [a * b] and [a - b] on [time.Duration]. *)
Definition mul (a b : Z) : Z := wrap (a * b).
Definition sub (a b : Z) : Z := wrap (a - b).

Definition Nanosecond : Z := 1.
Definition Microsecond : Z := 1000 * Nanosecond.
Definition Millisecond : Z := 1000 * Microsecond.
Definition Second : Z := 1000 * Millisecond.

(** [t.Sub(u)] on two readings of the monotonic clock: the difference,
    saturated at the largest and smallest [Duration]. *)
Definition time_sub (t u : Z) : Z :=
  Z.max minDuration (Z.min maxDuration (t - u)).

End Duration.

(** ** The userspace control loop ([main.go], the [ticker.C] case) *)

Module Control.

Import Duration.

Definition POLL_INTERVAL : Z := 350 * Millisecond.

Record eBPFMetrics : Type := mkMetrics {
  execveCount : Z;
  fileOpsCount : Z;
  networkCount : Z;
  processCount : Z;
  contextSwitchCount : Z;
  eventRate : Z;
  lastUpdate : Z
}.

(** The fields of [Game] that the control loop reads or writes; the
    snake, the food and the terminal size belong to the game logic. *)
Record Game : Type := mkGame {
  score : Z;
  lastFoodSpawn : Z;
  ebpfMetrics : eBPFMetrics
}.

(** What [m.Lookup(&key, ptr)] does with key 0 at the moment of the call:
    it either stores the slot's value through [ptr] or returns an error
    and stores nothing.  The loop ignores the error. *)
Inductive Map : Type :=
| LookupOk (value : Z)
| LookupErr.

Definition Lookup (m : Map) (field : Z) : Z :=
  match m with
  | LookupOk value => value
  | LookupErr => field
  end.

(** [if m != nil { m.Lookup(&key, unsafe.Pointer(&field)) }];
    [None] is the nil map of a name missing from [collection.Maps]. *)
Definition read_into (m : option Map) (field : Z) : Z :=
  match m with
  | Some m => Lookup m field
  | None => field
  end.

Record Maps : Type := mkMaps {
  execveMap : option Map;
  fileOpsMap : option Map;
  networkMap : option Map;
  processMap : option Map;
  contextSwitchMap : option Map;
  eventRateMap : option Map
}.

Definition set_execveCount (v : Z) (m : eBPFMetrics) : eBPFMetrics :=
  mkMetrics v (fileOpsCount m) (networkCount m) (processCount m)
            (contextSwitchCount m) (eventRate m) (lastUpdate m).
Definition set_fileOpsCount (v : Z) (m : eBPFMetrics) : eBPFMetrics :=
  mkMetrics (execveCount m) v (networkCount m) (processCount m)
            (contextSwitchCount m) (eventRate m) (lastUpdate m).
Definition set_networkCount (v : Z) (m : eBPFMetrics) : eBPFMetrics :=
  mkMetrics (execveCount m) (fileOpsCount m) v (processCount m)
            (contextSwitchCount m) (eventRate m) (lastUpdate m).
Definition set_processCount (v : Z) (m : eBPFMetrics) : eBPFMetrics :=
  mkMetrics (execveCount m) (fileOpsCount m) (networkCount m) v
            (contextSwitchCount m) (eventRate m) (lastUpdate m).
Definition set_contextSwitchCount (v : Z) (m : eBPFMetrics) : eBPFMetrics :=
  mkMetrics (execveCount m) (fileOpsCount m) (networkCount m)
            (processCount m) v (eventRate m) (lastUpdate m).
Definition set_eventRate (v : Z) (m : eBPFMetrics) : eBPFMetrics :=
  mkMetrics (execveCount m) (fileOpsCount m) (networkCount m)
            (processCount m) (contextSwitchCount m) v (lastUpdate m).

(** [metrics := eBPFMetrics{lastUpdate: time.Now()}] followed by the six
    guarded lookups. *)
Definition sample (now : Z) (maps : Maps) : eBPFMetrics :=
  let metrics := mkMetrics 0 0 0 0 0 0 now in
  let metrics := set_execveCount (read_into (execveMap maps) (execveCount metrics)) metrics in
  let metrics := set_fileOpsCount (read_into (fileOpsMap maps) (fileOpsCount metrics)) metrics in
  let metrics := set_networkCount (read_into (networkMap maps) (networkCount metrics)) metrics in
  let metrics := set_processCount (read_into (processMap maps) (processCount metrics)) metrics in
  let metrics :=
    set_contextSwitchCount
      (read_into (contextSwitchMap maps) (contextSwitchCount metrics)) metrics in
  let metrics := set_eventRate (read_into (eventRateMap maps) (eventRate metrics)) metrics in
  metrics.

(** The spawn interval computed inside [if metrics.fileOpsCount > 0]. *)
Definition spawn_interval (metrics : eBPFMetrics) : Z :=
  let spawnInterval := 15 * Second in
  let fileOpsBonus :=
    mul (mul (of_uint64 (fileOpsCount metrics / 50)) 100) Millisecond in
  let fileOpsBonus :=
    if 3 * Second <? fileOpsBonus then 3 * Second else fileOpsBonus in
  let spawnInterval := sub spawnInterval fileOpsBonus in
  if spawnInterval <? 5 * Second then 5 * Second else spawnInterval.

(** The timed spawn: the game with [lastFoodSpawn] moved when
    [game.spawnFood()] is called, and whether it was called.  [t_since] is
    the clock reading of [time.Since], [t_spawn] the one stored after the
    spawn. *)
Definition timed_spawn (t_since t_spawn : Z) (metrics : eBPFMetrics)
    (g : Game) : Game * bool :=
  if 0 <? fileOpsCount metrics then
    if spawn_interval metrics <? time_sub t_since (lastFoodSpawn g)
    then (mkGame (score g) t_spawn (ebpfMetrics g), true)
    else (g, false)
  else (g, false).

(** The five speed reductions and the new tick interval computed when
    [game.update()] reports a change. *)
Definition scoreSpeedReduction (score : Z) : Z :=
  mul (mul (of_int score) 1) Millisecond.

Definition execveSpeedReduction (metrics : eBPFMetrics) : Z :=
  let r := mul (mul (of_uint64 (execveCount metrics)) 500) Microsecond in
  if 30 * Millisecond <? r then 30 * Millisecond else r.

Definition processSpeedReduction (metrics : eBPFMetrics) : Z :=
  let r := mul (of_uint64 (processCount metrics / 3)) Millisecond in
  if 25 * Millisecond <? r then 25 * Millisecond else r.

Definition rateSpeedReduction (metrics : eBPFMetrics) : Z :=
  let r := mul (mul (of_uint64 (eventRate metrics)) 1) Millisecond in
  if 30 * Millisecond <? r then 30 * Millisecond else r.

Definition loadSpeedReduction (metrics : eBPFMetrics) : Z :=
  let r := mul (of_uint64 (contextSwitchCount metrics / 1500)) Millisecond in
  if 15 * Millisecond <? r then 15 * Millisecond else r.

Definition tick_interval (baseInterval : Z) (score : Z)
    (metrics : eBPFMetrics) : Z :=
  let newInterval :=
    sub (sub (sub (sub (sub baseInterval (scoreSpeedReduction score))
                       (execveSpeedReduction metrics))
                  (processSpeedReduction metrics))
             (rateSpeedReduction metrics))
        (loadSpeedReduction metrics) in
  if newInterval <? 100 * Millisecond then 100 * Millisecond else newInterval.

(** The loop's own variables next to the game. *)
Record loop_state : Type := mkLoop {
  game : Game;
  currentInterval : Z
}.

(** What one tick receives from outside the control function: the clock
    readings, the maps as they answer this cycle's lookups, and what
    [game.update()] does (its result and the score it leaves). *)
Record cycle_input : Type := mkInput {
  t_sample : Z;
  t_since : Z;
  t_spawn : Z;
  maps : Maps;
  update_changed : bool;
  update_score : Z
}.

(** What one tick hands to the game loop: whether the timed spawn fired,
    and the interval of the new ticker when it was replaced. *)
Record cycle_output : Type := mkOutput {
  spawned : bool;
  rescheduled : option Z
}.

Definition baseInterval : Z := POLL_INTERVAL.

(** One pass through [case <-ticker.C]. *)
Definition cycle (inp : cycle_input) (ls : loop_state)
    : loop_state * cycle_output :=
  let metrics := sample (t_sample inp) (maps inp) in
  let g := mkGame (score (game ls)) (lastFoodSpawn (game ls)) metrics in
  let '(g, fired) := timed_spawn (t_since inp) (t_spawn inp) metrics g in
  let g := mkGame (update_score inp) (lastFoodSpawn g) (ebpfMetrics g) in
  if update_changed inp then
    let newInterval := tick_interval baseInterval (score g) metrics in
    if newInterval =? currentInterval ls
    then (mkLoop g (currentInterval ls), mkOutput fired None)
    else (mkLoop g newInterval, mkOutput fired (Some newInterval))
  else (mkLoop g (currentInterval ls), mkOutput fired None).

(** Consecutive ticks, oldest first, with the outputs in the same order. *)
Fixpoint run_cycles (inps : list cycle_input) (ls : loop_state)
    : loop_state * list cycle_output :=
  match inps with
  | [] => (ls, [])
  | inp :: rest =>
      let '(ls1, out) := cycle inp ls in
      let '(ls2, outs) := run_cycles rest ls1 in
      (ls2, out :: outs)
  end.

(** The loop state before the first tick. *)
Definition init_loop (now : Z) : loop_state :=
  mkLoop (mkGame 0 now (mkMetrics 0 0 0 0 0 0 0)) baseInterval.

(** A guarded lookup that stores nothing: the map is nil or [Lookup]
    returns an error. *)
Definition read_fails (m : option Map) : Prop :=
  m = None \/ m = Some LookupErr.

(** The six sampled fields, with the map each is read from. *)
Inductive field : Type :=
| FExecve | FFileOps | FNetwork | FProcess | FContextSwitch | FEventRate.

Definition map_of (f : field) (maps : Maps) : option Map :=
  match f with
  | FExecve => execveMap maps
  | FFileOps => fileOpsMap maps
  | FNetwork => networkMap maps
  | FProcess => processMap maps
  | FContextSwitch => contextSwitchMap maps
  | FEventRate => eventRateMap maps
  end.

Definition value_of (f : field) (metrics : eBPFMetrics) : Z :=
  match f with
  | FExecve => execveCount metrics
  | FFileOps => fileOpsCount metrics
  | FNetwork => networkCount metrics
  | FProcess => processCount metrics
  | FContextSwitch => contextSwitchCount metrics
  | FEventRate => eventRate metrics
  end.

(** Score and metrics small enough that none of the [Duration] products of
    the control function leaves the [int64] range. *)
Definition no_overflow (score : Z) (metrics : eBPFMetrics) : Prop :=
  0 <= score /\ score * 1000000 <= maxDuration /\
  0 <= execveCount metrics /\ execveCount metrics * 500000 <= maxDuration /\
  0 <= processCount metrics /\
  processCount metrics / 3 * 1000000 <= maxDuration /\
  0 <= eventRate metrics /\ eventRate metrics * 1000000 <= maxDuration /\
  0 <= contextSwitchCount metrics /\
  contextSwitchCount metrics / 1500 * 1000000 <= maxDuration /\
  0 <= fileOpsCount metrics /\
  fileOpsCount metrics / 50 * 100000000 <= maxDuration.

End Control.

(** ** Probe attachment ([attachAllKprobes] of [main.go]) *)

Module Attach.

Section AttachAllKprobes.

(** [*ebpf.Program] and [link.Link]. *)
Variables Program Link : Type.

(** [link.Kprobe(name, prog, nil)]: the link when [err == nil]. *)
Variable Kprobe : string -> Program -> option Link.

(** [collection.Programs]; a missing name reads as nil. *)
Variable Programs : gmap string Program.

(** [for _, name := range probeNames { if kp, err := ...; err == nil
    { links = append(links, kp); break } }] *)
Fixpoint try_probe_names (probeNames : list string) (prog : Program)
    (links : list Link) : list Link :=
  match probeNames with
  | [] => links
  | name :: rest =>
      match Kprobe name prog with
      | Some kp => links ++ [kp]
      | None => try_probe_names rest prog links
      end
  end.

(** [if prog := collection.Programs[handler]; prog != nil { ... }] *)
Definition attach_block (handler : string) (probeNames : list string)
    (links : list Link) : list Link :=
  match Programs !! handler with
  | Some prog => try_probe_names probeNames prog links
  | None => links
  end.

Inductive result : Type :=
| Attached (links : list Link)
| Failed (err : string).

Definition attachAllKprobes : result :=
  let links := [] in
  let links :=
    attach_block "handle_execve"
      ["sys_enter_execve"; "__x64_sys_execve"; "__arm64_sys_execve";
       "__s390x_sys_execve"; "__x86_sys_execve"]%string links in
  let links :=
    attach_block "handle_file_open"
      ["do_sys_openat2"; "do_sys_open"; "__x64_sys_openat"]%string links in
  let links :=
    attach_block "handle_network_connect"
      ["tcp_v4_connect"; "tcp_v6_connect"]%string links in
  let links :=
    attach_block "handle_process_fork"
      ["_do_fork"; "kernel_clone"; "__x64_sys_clone"]%string links in
  let links :=
    match Programs !! "handle_context_switch"%string with
    | Some prog =>
        match Kprobe "__schedule" prog with
        | Some kp => links ++ [kp]
        | None => links
        end
    | None => links
    end in
  if (length links =? 0)%nat
  then Failed "failed to attach any kprobes"
  else Attached links.

(** The five event classes with the handler and the ordered candidate
    symbols of each, for stating what the function achieves. *)
Inductive event_class : Type :=
| ClassExecve | ClassFileOpen | ClassNetworkConnect | ClassProcessFork
| ClassContextSwitch.

Definition all_classes : list event_class :=
  [ClassExecve; ClassFileOpen; ClassNetworkConnect; ClassProcessFork;
   ClassContextSwitch].

Definition handler_of (c : event_class) : string :=
  match c with
  | ClassExecve => "handle_execve"
  | ClassFileOpen => "handle_file_open"
  | ClassNetworkConnect => "handle_network_connect"
  | ClassProcessFork => "handle_process_fork"
  | ClassContextSwitch => "handle_context_switch"
  end.

Definition candidates (c : event_class) : list string :=
  match c with
  | ClassExecve =>
      ["sys_enter_execve"; "__x64_sys_execve"; "__arm64_sys_execve";
       "__s390x_sys_execve"; "__x86_sys_execve"]
  | ClassFileOpen => ["do_sys_openat2"; "do_sys_open"; "__x64_sys_openat"]
  | ClassNetworkConnect => ["tcp_v4_connect"; "tcp_v6_connect"]
  | ClassProcessFork => ["_do_fork"; "kernel_clone"; "__x64_sys_clone"]
  | ClassContextSwitch => ["__schedule"]
  end%string.

(** [kp] is the link of the first candidate that attaches. *)
Definition first_success (prog : Program) (names : list string)
    (kp : Link) : Prop :=
  exists before name after,
    names = before ++ name :: after /\
    Forall (fun n => Kprobe n prog = None) before /\
    Kprobe name prog = Some kp.

(** The outcome of a class: bound to the first success, or skipped
    because the program is missing or no candidate attaches. *)
Definition class_outcome (c : event_class) (o : option Link) : Prop :=
  match Programs !! handler_of c with
  | None => o = None
  | Some prog =>
      match o with
      | Some kp => first_success prog (candidates c) kp
      | None => Forall (fun n => Kprobe n prog = None) (candidates c)
      end
  end.

(** What a class contributes to [links]. *)
Definition option_list (o : option Link) : list Link :=
  match o with
  | Some kp => [kp]
  | None => []
  end.

(** The link a class ends up with, computed directly: the first candidate
    that attaches, provided the program exists. *)
Fixpoint first_link (names : list string) (prog : Program) : option Link :=
  match names with
  | [] => None
  | name :: rest =>
      match Kprobe name prog with
      | Some kp => Some kp
      | None => first_link rest prog
      end
  end.

Definition bound_link (c : event_class) : option Link :=
  match Programs !! handler_of c with
  | Some prog => first_link (candidates c) prog
  | None => None
  end.

End AttachAllKprobes.

Arguments Attached {Link} links.
Arguments Failed {Link} err.

End Attach.


(** ** Derived notions for the tracer *)

Module TracerAux.

Import Tracer.

(** The five counters of a state, in the order of the maps. *)
Definition counters_of (st : state) : Z * Z * Z * Z * Z :=
  (execve_counter st, file_ops_counter st, network_counter st,
   process_counter st, context_switch_counter st).

(** Whether a firing calls [increment_event_bucket]: every probe but the
    context-switch one. *)
Definition feeds_bucket (p : probe) : bool :=
  match p with
  | ContextSwitch => false
  | _ => true
  end.

(** All clock readings of a firing fall in second [s]. *)
Definition reads_second (s : Z) (p : probe) : Prop :=
  match p with
  | Execve t_bucket t_rate => seconds_of t_bucket = s /\ seconds_of t_rate = s
  | FileOpen t_bucket => seconds_of t_bucket = s
  | NetworkConnect t_bucket => seconds_of t_bucket = s
  | ProcessFork t_bucket => seconds_of t_bucket = s
  | ContextSwitch => True
  end.

(** How many firings of a sequence feed the bucket. *)
Definition bucket_events (ps : list probe) : Z :=
  Z.of_nat (length (filter (fun p => feeds_bucket p = true) ps)).

(** A [recent_events] map with an entry for each of the seconds 0..99. *)
Definition full_buckets : gmap Z Z :=
  list_to_map (map (fun i => (Z.of_nat i, 1)) (seq 0 100)).

End TracerAux.

(** ** Derived notions for the control loop *)

Module ControlAux.

Import Duration Control.

(** The two intervals in closed form, with exact integer arithmetic:
    each factor capped on its own, the sum taken off the base, the floor
    applied last. *)
Definition closed_tick_interval (score : Z) (metrics : eBPFMetrics) : Z :=
  Z.max (100 * Millisecond)
    (350 * Millisecond
     - score * Millisecond
     - Z.min (30 * Millisecond) (execveCount metrics * (500 * Microsecond))
     - Z.min (25 * Millisecond) (processCount metrics / 3 * Millisecond)
     - Z.min (30 * Millisecond) (eventRate metrics * Millisecond)
     - Z.min (15 * Millisecond)
         (contextSwitchCount metrics / 1500 * Millisecond)).

Definition closed_spawn_interval (metrics : eBPFMetrics) : Z :=
  15 * Second
  - Z.min (3 * Second) (fileOpsCount metrics / 50 * (100 * Millisecond)).

(** [m2] reports at least as much activity as [m1] in every counter. *)
Definition metrics_le (m1 m2 : eBPFMetrics) : Prop :=
  execveCount m1 <= execveCount m2 /\
  fileOpsCount m1 <= fileOpsCount m2 /\
  processCount m1 <= processCount m2 /\
  contextSwitchCount m1 <= contextSwitchCount m2 /\
  eventRate m1 <= eventRate m2.

(** Every interval handed to the ticker is at least the floor. *)
Definition reschedule_ok (out : cycle_output) : Prop :=
  match rescheduled out with
  | Some d => 100 * Millisecond <= d
  | None => True
  end.

End ControlAux.

(** ** Go's [int] (64 bits) *)

Module GoInt.

Definition maxInt : Z := 2 ^ 63 - 1.

(** [a + b], [a * b] with two's-complement wrap-around. *)
Definition add (a b : Z) : Z := Duration.wrap (a + b).
Definition mul (a b : Z) : Z := Duration.wrap (a * b).

(** [a / b] and [a % b] truncate toward zero; the callers below guard or
    fix the divisor, a zero divisor panics. *)
Definition div (a b : Z) : Z := Z.quot a b.
Definition rem (a b : Z) : Z := Z.rem a b.

End GoInt.

(** ** The game ([main.go]: board size, [update], [spawnFood], input) *)

Module Snake.

Record Position : Type := mkPos { X : Z; Y : Z }.

(** The fields of [Game] that the game logic uses; the terminal size only
    matters to [render], [lastFoodSpawn] and [ebpfMetrics] to the control
    loop. *)
Record Game : Type := mkGame {
  snake : list Position;
  direction : Position;
  food : Position;
  score : Z;
  gameOver : bool;
  width : Z;
  height : Z
}.

Definition pos_eqb (p q : Position) : bool :=
  (X p =? X q) && (Y p =? Y q).

(** The board size [main] derives from the terminal size. *)
Definition game_size (termWidth termHeight : Z) : Z * Z :=
  let gameWidth := GoInt.div (GoInt.mul termWidth 3) 10 in
  let gameHeight := GoInt.div (GoInt.mul termHeight 3) 10 in
  let gameWidth := if gameWidth <? 18 then 18 else gameWidth in
  let gameWidth := if 32 <? gameWidth then 32 else gameWidth in
  let gameHeight := if gameHeight <? 8 then 8 else gameHeight in
  let gameHeight := if 16 <? gameHeight then 16 else gameHeight in
  if (termWidth <? GoInt.add gameWidth 4) || (termHeight <? GoInt.add gameHeight 4)
  then (20, 10)
  else (gameWidth, gameHeight).

(** The [Game] literal of [main], before its first [spawnFood]; the food
    field holds the zero [Position]. *)
Definition new_game (gameWidth gameHeight : Z) : Game :=
  let startX := GoInt.div gameWidth 2 in
  let startY := GoInt.div gameHeight 2 in
  mkGame [mkPos startX startY;
          mkPos (GoInt.add startX (-1)) startY;
          mkPos (GoInt.add startX (-2)) startY]
         (mkPos 1 0) (mkPos 0 0) 0 false gameWidth gameHeight.

(** [for _, segment := range g.snake { if x == segment.X && y == segment.Y
    ... }] *)
Definition on_snake (p : Position) (body : list Position) : bool :=
  existsb (fun segment => pos_eqb p segment) body.

Definition set_food (p : Position) (g : Game) : Game :=
  mkGame (snake g) (direction g) p (score g) (gameOver g) (width g) (height g).

(** The cell tried by attempt number [attempt] of [spawnFood], from the two
    values [time.Now().UnixNano()] returns in it. *)
Definition attempt_cell (now_x now_y : Z) (attempt : Z) (g : Game) : Position :=
  mkPos (GoInt.rem (GoInt.add now_x (GoInt.mul attempt 17)) (width g))
        (GoInt.rem (GoInt.add (GoInt.div now_y 1000) (GoInt.mul attempt 23))
                   (height g)).

(** The first loop of [spawnFood] over the given attempt numbers: the game
    with the food of the last attempt made, and whether the loop returned
    on a free cell.  [clock attempt] gives the two clock readings of the
    attempt. *)
Fixpoint try_attempts (attempts : list nat) (clock : nat -> Z * Z) (g : Game)
    : Game * bool :=
  match attempts with
  | [] => (g, false)
  | attempt :: rest =>
      let g1 :=
        set_food (attempt_cell (fst (clock attempt)) (snd (clock attempt))
                    (Z.of_nat attempt) g) g in
      if negb (on_snake (food g1) (snake g1))
      then (g1, true)
      else try_attempts rest clock g1
  end.

(** [0, 1, ..., n - 1], empty when [n <= 0]: the values of a loop
    [for i := 0; i < n; i++]. *)
Definition upto (n : Z) : list Z := map Z.of_nat (seq 0 (Z.to_nat n)).

(** The cells in the order of the second loop: rows outside, columns
    inside. *)
Definition cells (g : Game) : list Position :=
  flat_map (fun y => map (fun x => mkPos x y) (upto (width g))) (upto (height g)).

Definition maxAttempts : nat := 100.

(** [spawnFood]; [None] is the division-by-zero panic of [% g.width] or
    [% g.height]. *)
Definition spawnFood (clock : nat -> Z * Z) (g : Game) : option Game :=
  if (width g =? 0) || (height g =? 0) then None
  else
    let '(g1, placed) := try_attempts (seq 0 maxAttempts) clock g in
    if placed then Some g1
    else
      match find (fun cell => negb (on_snake cell (snake g1))) (cells g1) with
      | Some cell => Some (set_food cell g1)
      | None => Some g1
      end.

(** [g.snake[:len(g.snake)-1]] *)
Definition drop_last (body : list Position) : list Position := removelast body.

(** The two [append(g.snake, tail)] after eating. *)
Definition grow_tail (body : list Position) : option (list Position) :=
  match last body with
  | Some tail => Some (body ++ [tail] ++ [tail])
  | None => None
  end.

(** [update]; [None] is a panic (indexing an empty snake, or the one of
    [spawnFood]). *)
Definition update (clock : nat -> Z * Z) (g : Game) : option (Game * bool) :=
  if gameOver g then Some (g, false)
  else if (X (direction g) =? 0) && (Y (direction g) =? 0) then Some (g, false)
  else
    match snake g with
    | [] => None
    | head :: _ =>
        let newHead := mkPos (GoInt.add (X head) (X (direction g)))
                             (GoInt.add (Y head) (Y (direction g))) in
        if (X newHead <? 0) || (width g <=? X newHead)
           || (Y newHead <? 0) || (height g <=? Y newHead)
        then Some (mkGame (snake g) (direction g) (food g) (score g) true
                          (width g) (height g), true)
        else if on_snake newHead (drop_last (snake g))
        then Some (mkGame (snake g) (direction g) (food g) (score g) true
                          (width g) (height g), true)
        else
          let oldSnakeLen := length (snake g) in
          let oldFood := food g in
          if pos_eqb newHead (food g) then
            match spawnFood clock
                    (mkGame (snake g) (direction g) (food g)
                            (GoInt.add (score g) 1) (gameOver g)
                            (width g) (height g)) with
            | None => None
            | Some g1 =>
                match grow_tail (newHead :: snake g1) with
                | None => None
                | Some body =>
                    let g2 := mkGame body (direction g1) (food g1) (score g1)
                                     (gameOver g1) (width g1) (height g1) in
                    Some (g2,
                          negb (oldSnakeLen =? length (snake g2))%nat
                          || negb (pos_eqb newHead head)
                          || negb (pos_eqb oldFood (food g2)))
                end
            end
          else
            let g2 := mkGame (newHead :: drop_last (snake g)) (direction g)
                             (food g) (score g) (gameOver g)
                             (width g) (height g) in
            Some (g2,
                  negb (oldSnakeLen =? length (snake g2))%nat
                  || negb (pos_eqb newHead head)
                  || negb (pos_eqb oldFood (food g2)))
    end.

Definition set_direction (d : Position) (g : Game) : Game :=
  mkGame (snake g) d (food g) (score g) (gameOver g) (width g) (height g).

Definition one_of (input : string) (keys : list string) : bool :=
  existsb (String.eqb input) keys.

(** The [case input := <-inputChan] branch of the loop: the game, and
    [dirChanged]. *)
Definition handle_input (input : string) (g : Game) : Game * bool :=
  if one_of input ["w"; "W"; "up"]%string then
    if Y (direction g) =? 0 then (set_direction (mkPos 0 (-1)) g, true)
    else (g, false)
  else if one_of input ["s"; "S"; "down"]%string then
    if Y (direction g) =? 0 then (set_direction (mkPos 0 1) g, true)
    else (g, false)
  else if one_of input ["a"; "A"; "left"]%string then
    if X (direction g) =? 0 then (set_direction (mkPos (-1) 0) g, true)
    else (g, false)
  else if one_of input ["d"; "D"; "right"]%string then
    if X (direction g) =? 0 then (set_direction (mkPos 1 0) g, true)
    else (g, false)
  else if one_of input ["q"; "Q"]%string then
    (mkGame (snake g) (direction g) (food g) (score g) true
            (width g) (height g), false)
  else (g, false).

(** What happens to the game between two renderings: a tick that calls
    [update], a timed [spawnFood], a token from the input channel. *)
Inductive event : Type :=
| Tick (clock : nat -> Z * Z)
| TimedSpawn (clock : nat -> Z * Z)
| Key (input : string).

Definition step (e : event) (g : Game) : option Game :=
  match e with
  | Tick clock => option_map fst (update clock g)
  | TimedSpawn clock => spawnFood clock g
  | Key input => Some (fst (handle_input input g))
  end.

Fixpoint play (es : list event) (g : Game) : option Game :=
  match es with
  | [] => Some g
  | e :: rest =>
      match step e g with
      | Some g1 => play rest g1
      | None => None
      end
  end.

(** The cell [update] moves the head to. *)
Definition next_head (g : Game) : option Position :=
  match snake g with
  | [] => None
  | head :: _ =>
      Some (mkPos (GoInt.add (X head) (X (direction g)))
                  (GoInt.add (Y head) (Y (direction g))))
  end.

(** The direction is one of the four unit steps. *)
Definition unit_step (d : Position) : Prop :=
  (X d = 1 /\ Y d = 0) \/ (X d = -1 /\ Y d = 0)
  \/ (X d = 0 /\ Y d = 1) \/ (X d = 0 /\ Y d = -1).

Definition in_grid (g : Game) (p : Position) : Prop :=
  0 <= X p < width g /\ 0 <= Y p < height g.

(** A snake that exists and lies on a board of positive size. *)
Definition wf (g : Game) : Prop :=
  snake g <> []
  /\ Forall (in_grid g) (snake g)
  /\ 0 < width g <= GoInt.maxInt
  /\ 0 < height g <= GoInt.maxInt
  /\ unit_step (direction g).

(** Clock readings as [UnixNano] gives them after 1970, far from the end
    of the [int] range. *)
Definition clock_ok (clock : nat -> Z * Z) : Prop :=
  forall attempt,
    0 <= fst (clock attempt) <= GoInt.maxInt - 2300
    /\ 0 <= snd (clock attempt) <= GoInt.maxInt.

(** Some cell of the board is not covered by the snake. *)
Definition has_free_cell (g : Game) : Prop :=
  exists p, in_grid g p /\ on_snake p (snake g) = false.

End Snake.

(** ** Keyboard input ([readInput] of [main.go]) *)

Module Input.

(** [string(char)] for a byte: the UTF-8 encoding of the code point. *)
Definition string_of_byte (char : Z) : string :=
  if char <? 128
  then String (Ascii.ascii_of_N (Z.to_N char)) EmptyString
  else String (Ascii.ascii_of_N (Z.to_N (192 + char / 64)))
         (String (Ascii.ascii_of_N (Z.to_N (128 + char mod 64))) EmptyString).

(** The [switch dir] after [ESC] and ['[']; [None] is the [default:
    continue]. *)
Definition arrow (dir : Z) : option string :=
  if dir =? 65 then Some "up"%string
  else if dir =? 66 then Some "down"%string
  else if dir =? 67 then Some "right"%string
  else if dir =? 68 then Some "left"%string
  else None.

(** The token for a byte that is not the start of an arrow sequence:
    upper-case letters are lowered. *)
Definition key_token (char : Z) : string :=
  if (65 <=? char) && (char <=? 90)
  then string_of_byte (char + 32)
  else string_of_byte char.

(** The tokens [readInput] offers to the channel, in order, for the bytes
    that standard input delivers up to its end.  [reader.Peek(2)] shows
    the next two bytes, or fewer at the end of the input. *)
Fixpoint decode (bytes : list Z) : list string :=
  match bytes with
  | [] => []
  | char :: rest =>
      if char =? 27 then
        match rest with
        | peeked0 :: dir :: rest2 =>
            if peeked0 =? 91 then
              match arrow dir with
              | Some direction => direction :: decode rest2
              | None => decode rest2
              end
            else key_token char :: decode rest
        | _ => key_token char :: decode rest
        end
      else key_token char :: decode rest
  end.










(** The token is not the one-character string of an upper-case letter. *)
Definition never_upper (token : string) : Prop :=
  forall upper, 65 <= upper <= 90 -> token <> string_of_byte upper.


(** The game after the loop has handled the received values, in order. *)
Definition steer (tokens : list string) (g : Snake.Game) : Snake.Game :=
  fold_left (fun g token => fst (Snake.handle_input token g)) tokens g.

End Input.

(** ** Loading the tracer ([loadEBPF] of [main.go]) *)

Module Load.

Section LoadEBPF.

(** [*ebpf.CollectionSpec]. *)
Variable CollectionSpec : Type.

(** [ebpf.LoadCollectionSpec(path)]: the spec when [err == nil]. *)
Variable LoadCollectionSpec : string -> option CollectionSpec.

(** [ebpf.NewCollection(spec)]: when [err == nil], the maps of the
    collection by name, each given by the value of its slot 0. *)
Variable NewCollection : CollectionSpec -> option (gmap string Z).

(** Whether [m.Put(&key, &value)] succeeds on the map of that name. *)
Variable put_ok : string -> bool.

Inductive error : Type :=
| ErrLoadCollectionSpec
| ErrNewCollection
| ErrInitialize (mapName : string).

Inductive result : Type :=
| Loaded (maps : gmap string Z)
| LoadFailed (err : error).

Definition bpfPaths : list string :=
  ["bpf/snake.bpf.o"; "../bpf/snake.bpf.o"; "./bpf/snake.bpf.o"]%string.

Definition mapsToInit : list string :=
  ["execve_counter"; "file_ops_counter"; "network_counter";
   "process_counter"; "context_switch_counter"; "event_rate"]%string.

(** The loop over the paths: the spec of the first path that loads; [None]
    when the last attempt, hence every attempt, failed. *)
Fixpoint load_first (paths : list string) : option CollectionSpec :=
  match paths with
  | [] => None
  | path :: rest =>
      match LoadCollectionSpec path with
      | Some spec => Some spec
      | None => load_first rest
      end
  end.

(** The loop over [mapsToInit]: a map that exists gets 0 at key 0; the
    first failing [Put] ends the function with its error. *)
Fixpoint init_maps (names : list string) (maps : gmap string Z) : result :=
  match names with
  | [] => Loaded maps
  | mapName :: rest =>
      match maps !! mapName with
      | Some _ =>
          if put_ok mapName
          then init_maps rest (<[mapName := 0]> maps)
          else LoadFailed (ErrInitialize mapName)
      | None => init_maps rest maps
      end
  end.

Definition loadEBPF : result :=
  match load_first bpfPaths with
  | None => LoadFailed ErrLoadCollectionSpec
  | Some spec =>
      match NewCollection spec with
      | None => LoadFailed ErrNewCollection
      | Some maps => init_maps mapsToInit maps
      end
  end.

End LoadEBPF.

End Load.

(** * Properties *)

(** ** Unsigned 64-bit arithmetic *)

Module U64Facts.

Lemma add_in_range a b : U64.in_range (U64.add a b).
Proof. unfold U64.in_range, U64.add, U64.modulus. apply Z.mod_pos_bound. lia. Qed.

Lemma add_no_wrap a b : 0 <= a + b < U64.modulus -> U64.add a b = a + b.
Proof. intros H. unfold U64.add. now apply Z.mod_small. Qed.

Lemma sub_ten_differs s : U64.sub s 10 <> s.
Proof.
  unfold U64.sub, U64.modulus. intros H.
  pose proof (Z.mod_pos_bound (s - 10) (2 ^ 64) ltac:(lia)) as Hb.
  rewrite H in Hb.
  rewrite Z.mod_eq in H by lia.
  assert (Hq : (s - 10) / 2 ^ 64 = -1 \/ (s - 10) / 2 ^ 64 = 0).
  { assert (-1 <= (s - 10) / 2 ^ 64) by (apply Z.div_le_lower_bound; lia).
    assert ((s - 10) / 2 ^ 64 < 1) by (apply Z.div_lt_upper_bound; lia).
    lia. }
  lia.
Qed.

End U64Facts.

(** ** The tracer *)

Module TracerFacts.

Import Tracer.

Lemma array_lookup_zero slot : array_lookup slot 0 = Some slot.
Proof. reflexivity. Qed.

Lemma handle_context_switch_counter st :
  context_switch_counter (handle_context_switch st)
  = context_switch_next (context_switch_counter st).
Proof.
  unfold handle_context_switch, context_switch_next.
  rewrite array_lookup_zero.
  destruct (context_switch_counter st mod 100 =? 0); reflexivity.
Qed.

Lemma fire_context_switch_succ n st :
  fire_context_switch (N.succ n) st
  = handle_context_switch (fire_context_switch n st).
Proof. unfold fire_context_switch. apply N.iter_succ. Qed.

Lemma fire_context_switch_counter n st :
  context_switch_counter (fire_context_switch n st)
  = N.iter n context_switch_next (context_switch_counter st).
Proof.
  induction n as [|n IH] using N.peano_ind.
  - reflexivity.
  - rewrite fire_context_switch_succ, handle_context_switch_counter, IH.
    now rewrite N.iter_succ.
Qed.

Lemma context_switch_next_hundred k :
  0 <= k -> 100 * (k + 1) < U64.modulus ->
  context_switch_next (100 * k) = 100 * (k + 1).
Proof.
  intros Hk Hlim. unfold context_switch_next.
  replace (100 * k) with (k * 100) by lia.
  rewrite Z.mod_mul by lia. simpl.
  rewrite U64Facts.add_no_wrap; lia.
Qed.

(** While no addition wraps, the counter is 100 times the number of
    firings. *)
Lemma iter_context_switch_next n :
  100 * Z.of_N n < U64.modulus ->
  N.iter n context_switch_next 0 = 100 * Z.of_N n.
Proof.
  induction n as [|n IH] using N.peano_ind; intros Hlim.
  - reflexivity.
  - rewrite N.iter_succ, IH by lia.
    rewrite context_switch_next_hundred by lia. lia.
Qed.

Lemma context_switch_from_init n :
  100 * Z.of_N n < U64.modulus ->
  context_switch_counter (fire_context_switch n init_state) = 100 * Z.of_N n.
Proof.
  intros Hlim. rewrite fire_context_switch_counter. simpl context_switch_counter.
  now apply iter_context_switch_next.
Qed.

(** C2, as amended: starting from 0, the counter after N firings of
    [handle_context_switch] reads exactly 100, 9900, 10000, 10100, 19900
    and 20000 for N = 1, 99, 100, 101, 199 and 200 (100 * N at each of
    these six N). *)
Theorem context_switch_values_at_checkpoints :
  map (fun n => context_switch_counter (fire_context_switch n init_state))
      [1; 99; 100; 101; 199; 200]%N
  = [100; 9900; 10000; 10100; 19900; 20000].
Proof.
  cbn [map].
  rewrite !context_switch_from_init by (unfold U64.modulus; lia).
  reflexivity.
Qed.

(** C2 as stated fails: at each of the six checkpoints the counter differs
    from the value of the pattern "the first 99 firings add 1, the 100th
    adds 100"; already the first firing adds 100, not 1. *)
Lemma context_switch_pattern_mismatch :
  Forall (fun n =>
            context_switch_counter (fire_context_switch (N.of_nat n) init_state)
            <> spec_pattern_value n)
         [1; 99; 100; 101; 199; 200]%nat
  /\ context_switch_counter (fire_context_switch 1 init_state) = 100
  /\ spec_pattern_value 1 = 1.
Proof.
  split; [|split].
  - repeat constructor;
      rewrite context_switch_from_init by (unfold U64.modulus; lia);
      vm_compute; discriminate.
  - reflexivity.
  - reflexivity.
Qed.

(** C10, as amended: starting from the initial value 0, as long as 100 * N
    stays below 2^64 the counter after N firings equals 100 * N, is a
    multiple of 100, and every one of those firings added exactly 100. *)
Theorem context_switch_counts_hundreds (n : N) :
  100 * Z.of_N n < U64.modulus ->
  context_switch_counter (fire_context_switch n init_state) = 100 * Z.of_N n
  /\ context_switch_counter (fire_context_switch n init_state) mod 100 = 0
  /\ forall k, (k < n)%N ->
       context_switch_counter (fire_context_switch (N.succ k) init_state)
       = context_switch_counter (fire_context_switch k init_state) + 100.
Proof.
  intros Hlim. split; [|split].
  - now apply context_switch_from_init.
  - rewrite context_switch_from_init by assumption.
    replace (100 * Z.of_N n) with (Z.of_N n * 100) by lia.
    apply Z.mod_mul. lia.
  - intros k Hk.
    rewrite !context_switch_from_init by lia. lia.
Qed.

Lemma context_switch_counts_hundreds_witness :
  context_switch_counter (fire_context_switch 3 init_state) = 300
  /\ context_switch_counter (fire_context_switch 3 init_state) mod 100 = 0
  /\ forall k, (k < 3)%N ->
       context_switch_counter (fire_context_switch (N.succ k) init_state)
       = context_switch_counter (fire_context_switch k init_state) + 100.
Proof.
  apply (context_switch_counts_hundreds 3). unfold U64.modulus. lia.
Defined.

(** C10 as stated fails once the 64-bit counter wraps: the firing number
    184467440737095517 takes it from 18446744073709551600 to 84, which is
    neither a multiple of 100 nor 100 times the number of firings, so the
    next firing adds 1. *)
Lemma context_switch_wraps :
  let n := 184467440737095517%N in
  context_switch_counter (fire_context_switch n init_state) = 84
  /\ 84 mod 100 <> 0
  /\ 84 <> 100 * Z.of_N n
  /\ context_switch_counter (fire_context_switch (N.succ n) init_state) = 85.
Proof.
  assert (H0 : context_switch_counter
                 (fire_context_switch 184467440737095517 init_state) = 84).
  { change 184467440737095517%N with (N.succ 184467440737095516).
    rewrite fire_context_switch_succ, handle_context_switch_counter.
    rewrite context_switch_from_init by (unfold U64.modulus; lia).
    reflexivity. }
  cbv zeta. split; [exact H0|]. split; [discriminate|]. split; [discriminate|].
  rewrite fire_context_switch_succ, handle_context_switch_counter, H0.
  reflexivity.
Qed.

(** *** Counters under firings *)

Ltac unfold_handlers :=
  unfold handle_execve, handle_file_open, handle_network_connect,
    handle_process_fork, handle_context_switch, update_event_rate,
    increment_event_bucket, set_execve_counter, set_file_ops_counter,
    set_network_counter, set_process_counter, set_context_switch_counter,
    set_event_rate, set_recent_events;
  rewrite ?array_lookup_zero.



Lemma run_cons p ps st : run (p :: ps) st = run ps (fire p st).
Proof. reflexivity. Qed.





(** *** Which probes touch the rate and the buckets *)

Lemma fire_keeps_rate st p :
  is_execve p = false -> event_rate (fire p st) = event_rate st.
Proof.
  intros Hp. destruct st as [e f n pr c r m].
  destruct p; try discriminate; simpl fire; unfold_handlers; simpl;
    repeat case_match; reflexivity.
Qed.

Lemma handle_execve_rate st t_bucket t_rate :
  event_rate (handle_execve t_bucket t_rate st)
  = default 0 (recent_events (increment_event_bucket t_bucket st)
                 !! seconds_of t_rate).
Proof.
  destruct st as [e f n pr c r m].
  unfold_handlers; simpl; repeat case_match; simpl in *;
    match goal with
    | H : ?o = _ |- _ = default 0 ?o => rewrite H; reflexivity
    end.
Qed.

(** A run without exec firings leaves the rate as it was. *)
Lemma run_without_execve_keeps_rate ps st :
  forallb (fun p => negb (is_execve p)) ps = true ->
  event_rate (run ps st) = event_rate st.
Proof.
  revert st. induction ps as [|p ps IH]; intros st Hps; [reflexivity|].
  simpl in Hps. apply andb_true_iff in Hps as [Hp Hps].
  rewrite run_cons, IH by assumption.
  apply fire_keeps_rate. now apply negb_true_iff.
Qed.

(** C5: the file-open, network-connect, fork and context-switch handlers
    leave the [event_rate] slot as it was, the context-switch handler also
    leaves [recent_events] as it was, and the exec handler is the one that
    writes the slot: it stores the bucket of the second it reads, or 0. *)
Theorem only_execve_updates_rate (st : state) (t t_bucket t_rate : Z) :
  event_rate (handle_file_open t st) = event_rate st
  /\ event_rate (handle_network_connect t st) = event_rate st
  /\ event_rate (handle_process_fork t st) = event_rate st
  /\ event_rate (handle_context_switch st) = event_rate st
  /\ recent_events (handle_context_switch st) = recent_events st
  /\ event_rate (handle_execve t_bucket t_rate st)
     = default 0 (recent_events (increment_event_bucket t_bucket st)
                    !! seconds_of t_rate).
Proof.
  split; [exact (fire_keeps_rate st (FileOpen t) eq_refl)|].
  split; [exact (fire_keeps_rate st (NetworkConnect t) eq_refl)|].
  split; [exact (fire_keeps_rate st (ProcessFork t) eq_refl)|].
  split; [exact (fire_keeps_rate st ContextSwitch eq_refl)|].
  split; [|apply handle_execve_rate].
  destruct st as [e f n pr c r m].
  unfold_handlers; simpl; repeat case_match; reflexivity.
Qed.

(** *** The rate after exec firings *)

Lemma increment_event_bucket_buckets t st :
  recent_events (increment_event_bucket t st)
  = match recent_events st !! seconds_of t with
    | Some count => <[seconds_of t := U64.add count 1]> (recent_events st)
    | None => hash_update (seconds_of t) 1 (recent_events st)
    end.
Proof.
  unfold increment_event_bucket.
  destruct (recent_events st !! seconds_of t); reflexivity.
Qed.

Lemma handle_execve_buckets t_bucket t_rate st :
  recent_events (handle_execve t_bucket t_rate st)
  = hash_delete (U64.sub (seconds_of t_rate) 10)
      (recent_events (increment_event_bucket t_bucket st)).
Proof.
  destruct st as [e f n pr c r m].
  unfold_handlers; simpl; repeat case_match; reflexivity.
Qed.

(** The buckets after one exec firing in second [s] that opens the bucket
    of [s]. *)
Lemma handle_execve_opens_bucket t1 t2 s st :
  seconds_of t1 = s -> seconds_of t2 = s ->
  recent_events st !! s = None ->
  (size (recent_events st) < recent_events_max_entries)%nat ->
  recent_events (handle_execve t1 t2 st)
  = delete (U64.sub s 10) (<[s := 1]> (recent_events st)).
Proof.
  intros H1 H2 Hnew Hroom.
  rewrite handle_execve_buckets, increment_event_bucket_buckets, H1, H2, Hnew.
  unfold hash_update, hash_delete. rewrite Hnew.
  apply Nat.ltb_lt in Hroom. now rewrite Hroom.
Qed.

(** Two exec firings in a second that had no bucket yet. *)
Lemma execve_twice_same_second st s t1 t2 t3 t4 :
  seconds_of t1 = s -> seconds_of t2 = s ->
  seconds_of t3 = s -> seconds_of t4 = s ->
  recent_events st !! s = None ->
  (size (recent_events st) < recent_events_max_entries)%nat ->
  event_rate (handle_execve t3 t4 (handle_execve t1 t2 st)) = 2.
Proof.
  intros H1 H2 H3 H4 Hnew Hroom.
  rewrite handle_execve_rate, increment_event_bucket_buckets, H3, H4.
  rewrite (handle_execve_opens_bucket t1 t2 s) by assumption.
  rewrite lookup_delete_ne by apply U64Facts.sub_ten_differs.
  rewrite lookup_insert_eq, lookup_insert_eq. reflexivity.
Qed.

(** An exec firing in second [s1], then one in another second [s2], neither
    of which had a bucket. *)
Lemma execve_again_other_second st s1 s2 t1 t2 t3 t4 :
  seconds_of t1 = s1 -> seconds_of t2 = s1 ->
  seconds_of t3 = s2 -> seconds_of t4 = s2 ->
  s1 <> s2 ->
  recent_events st !! s1 = None ->
  recent_events st !! s2 = None ->
  (size (recent_events st) + 1 < recent_events_max_entries)%nat ->
  event_rate (handle_execve t3 t4 (handle_execve t1 t2 st)) = 1.
Proof.
  intros H1 H2 H3 H4 Hne Hnew1 Hnew2 Hroom.
  rewrite handle_execve_rate, increment_event_bucket_buckets, H3, H4.
  rewrite (handle_execve_opens_bucket t1 t2 s1) by (assumption || lia).
  assert (Habsent :
            delete (U64.sub s1 10) (<[s1 := 1]> (recent_events st)) !! s2 = None).
  { apply lookup_delete_None. right. now rewrite lookup_insert_ne. }
  rewrite Habsent. unfold hash_update. rewrite Habsent.
  assert (Hsize : (size (delete (U64.sub s1 10) (<[s1 := 1%Z]> (recent_events st)))
                   < recent_events_max_entries)%nat).
  { eapply Nat.le_lt_trans.
    - apply map_subseteq_size, delete_subseteq.
    - rewrite map_size_insert_None by assumption. lia. }
  apply Nat.ltb_lt in Hsize. rewrite Hsize.
  now rewrite lookup_insert_eq.
Qed.




(** On the freshly loaded tracer both scenarios hold for all clock
    readings. *)
Corollary execve_rate_on_fresh_tracer (s a1 a2 a3 a4 s1 s2 b1 b2 b3 b4 : Z) :
  seconds_of a1 = s -> seconds_of a2 = s ->
  seconds_of a3 = s -> seconds_of a4 = s ->
  seconds_of b1 = s1 -> seconds_of b2 = s1 ->
  s1 + 11 <= s2 ->
  seconds_of b3 = s2 -> seconds_of b4 = s2 ->
  event_rate (handle_execve a3 a4 (handle_execve a1 a2 init_state)) = 2
  /\ event_rate (handle_execve b3 b4 (handle_execve b1 b2 init_state)) = 1.
Proof.
  intros Ha1 Ha2 Ha3 Ha4 Hb1 Hb2 Hwait Hb3 Hb4. split.
  - apply (execve_twice_same_second init_state s); try assumption.
    + apply lookup_empty.
    + simpl. rewrite map_size_empty. unfold recent_events_max_entries. lia.
  - apply (execve_again_other_second init_state s1 s2); try assumption.
    + lia.
    + apply lookup_empty.
    + apply lookup_empty.
    + simpl. rewrite map_size_empty. unfold recent_events_max_entries. lia.
Qed.




End TracerFacts.

(** ** [time.Duration] arithmetic *)

Module DurationFacts.

Import Duration.

Lemma wrap_in_range z : in_range (wrap z).
Proof.
  unfold in_range, wrap, minDuration, maxDuration.
  pose proof (Z.mod_pos_bound (z + 2 ^ 63) (2 ^ 64) ltac:(lia)). lia.
Qed.

Lemma wrap_small z : in_range z -> wrap z = z.
Proof.
  unfold in_range, wrap, minDuration, maxDuration. intros H.
  rewrite Z.mod_small by lia. lia.
Qed.

Lemma mul_small a b : in_range (a * b) -> mul a b = a * b.
Proof. apply wrap_small. Qed.

Lemma sub_small a b : in_range (a - b) -> sub a b = a - b.
Proof. apply wrap_small. Qed.

End DurationFacts.

(** ** The control loop *)

Module ControlFacts.

Import Duration Control.

(** *** Capped factors *)

Lemma cap_le (cap r : Z) : (if cap <? r then cap else r) <= cap.
Proof. destruct (Z.ltb_spec cap r); lia. Qed.

(** C3: whatever the sampled metrics are, the exec, process, rate and
    context-switch reductions are at most 30ms, 25ms, 30ms and 15ms; with
    execveCount = 10,000,000 the exec reduction is exactly 30ms. *)
Theorem capped_factors_never_exceed_caps (metrics : eBPFMetrics) :
  execveSpeedReduction metrics <= 30 * Millisecond
  /\ processSpeedReduction metrics <= 25 * Millisecond
  /\ rateSpeedReduction metrics <= 30 * Millisecond
  /\ loadSpeedReduction metrics <= 15 * Millisecond
  /\ execveSpeedReduction (set_execveCount 10000000 metrics) = 30 * Millisecond.
Proof.
  unfold execveSpeedReduction, processSpeedReduction, rateSpeedReduction,
    loadSpeedReduction.
  repeat (split; [apply cap_le|]).
  reflexivity.
Qed.

(** *** The sampled snapshot *)

Lemma read_into_fails m v : read_fails m -> read_into m v = v.
Proof. intros [-> | ->]; reflexivity. Qed.

Lemma sample_field f now maps :
  value_of f (sample now maps) = read_into (map_of f maps) 0.
Proof. destruct f; reflexivity. Qed.

(** The metrics stored in the game after a tick are this tick's sample. *)
Lemma cycle_metrics inp ls :
  ebpfMetrics (game (fst (cycle inp ls))) = sample (t_sample inp) (maps inp).
Proof.
  unfold cycle, timed_spawn.
  repeat case_match; simplify_eq; reflexivity.
Qed.

(** C9: whatever the loop state left by earlier ticks, a field whose map is
    nil or whose lookup fails in this tick is 0 in the metrics the tick
    stores, and the stored metrics do not depend on the earlier state. *)
Theorem failed_read_yields_zero
    (f : field) (inp : cycle_input) (ls : loop_state) :
  read_fails (map_of f (maps inp)) ->
  value_of f (ebpfMetrics (game (fst (cycle inp ls)))) = 0
  /\ forall ls' : loop_state,
       ebpfMetrics (game (fst (cycle inp ls')))
       = ebpfMetrics (game (fst (cycle inp ls))).
Proof.
  intros Hfail. split.
  - rewrite cycle_metrics, sample_field. now apply read_into_fails.
  - intros ls'. now rewrite !cycle_metrics.
Qed.

Lemma failed_read_yields_zero_witness :
  let previous :=
    mkLoop (mkGame 4 1000 (mkMetrics 42 17 3 9 2500 6 900)) (300 * Millisecond) in
  let inp :=
    mkInput 2000 2001 2002
      (mkMaps (Some LookupErr) (Some (LookupOk 18)) None (Some (LookupOk 9))
              (Some (LookupOk 2600)) (Some (LookupOk 1)))
      true 4 in
  value_of FExecve (ebpfMetrics (game (fst (cycle inp previous)))) = 0
  /\ forall ls' : loop_state,
       ebpfMetrics (game (fst (cycle inp ls')))
       = ebpfMetrics (game (fst (cycle inp previous))).
Proof.
  cbv zeta. apply (failed_read_yields_zero FExecve). right. reflexivity.
Defined.

(** *** The timed spawn *)

Lemma timed_spawn_gated t_since t_spawn metrics g :
  fileOpsCount metrics = 0 ->
  timed_spawn t_since t_spawn metrics g = (g, false).
Proof. intros H. unfold timed_spawn. rewrite H. reflexivity. Qed.

Lemma cycle_without_file_ops inp ls :
  fileOpsCount (sample (t_sample inp) (maps inp)) = 0 ->
  spawned (snd (cycle inp ls)) = false
  /\ lastFoodSpawn (game (fst (cycle inp ls))) = lastFoodSpawn (game ls).
Proof.
  intros H. unfold cycle. rewrite timed_spawn_gated by assumption.
  repeat case_match; split; reflexivity.
Qed.

Lemma run_cycles_cons inp rest ls :
  run_cycles (inp :: rest) ls
  = (fst (run_cycles rest (fst (cycle inp ls))),
     snd (cycle inp ls) :: snd (run_cycles rest (fst (cycle inp ls)))).
Proof.
  simpl. destruct (cycle inp ls) as [ls1 out]. cbn [fst snd].
  destruct (run_cycles rest ls1) as [ls2 outs]. reflexivity.
Qed.

(** C6: over any sequence of ticks whose sampled fileOpsCount is 0
    throughout, whatever the clock readings, no tick fires the timed spawn
    and [lastFoodSpawn] stays where it was. *)
Theorem no_timed_spawn_without_file_ops
    (inps : list cycle_input) (ls : loop_state) :
  Forall (fun inp => fileOpsCount (sample (t_sample inp) (maps inp)) = 0) inps ->
  Forall (fun out => spawned out = false) (snd (run_cycles inps ls))
  /\ lastFoodSpawn (game (fst (run_cycles inps ls))) = lastFoodSpawn (game ls).
Proof.
  revert ls. induction inps as [|inp rest IH]; intros ls Hall.
  - split; [constructor|reflexivity].
  - inversion Hall as [|? ? Hinp Hrest]; subst.
    rewrite run_cycles_cons. cbn [fst snd].
    destruct (cycle_without_file_ops inp ls Hinp) as [Hout Hlast].
    destruct (IH (fst (cycle inp ls)) Hrest) as [Houts Hlast'].
    split; [constructor; assumption|congruence].
Qed.

Lemma no_timed_spawn_without_file_ops_witness :
  let quiet := mkMaps (Some (LookupOk 12)) (Some (LookupOk 0)) None
                      (Some (LookupOk 3)) (Some (LookupOk 1500))
                      (Some (LookupOk 2)) in
  let inps := [mkInput 1000000000 1000000001 1000000002 quiet true 0;
               mkInput 9000000000000000000 9000000000000000001
                       9000000000000000002 quiet false 0] in
  Forall (fun out => spawned out = false)
         (snd (run_cycles inps (init_loop 0)))
  /\ lastFoodSpawn (game (fst (run_cycles inps (init_loop 0))))
     = lastFoodSpawn (game (init_loop 0)).
Proof.
  cbv zeta. apply no_timed_spawn_without_file_ops.
  repeat constructor.
Defined.

(** *** The two intervals *)

Lemma floor_le (floor v : Z) : floor <= (if v <? floor then floor else v).
Proof. destruct (Z.ltb_spec v floor); lia. Qed.

(** The floors hold whatever the inputs are. *)
Lemma tick_interval_floor base score metrics :
  100 * Millisecond <= tick_interval base score metrics.
Proof. unfold tick_interval. cbv zeta. apply floor_le. Qed.

Lemma spawn_interval_floor metrics :
  5 * Second <= spawn_interval metrics.
Proof. unfold spawn_interval. cbv zeta. apply floor_le. Qed.

Lemma scaled_once x k :
  0 <= x -> 0 < k -> x * k <= maxDuration ->
  mul (of_uint64 x) k = x * k.
Proof.
  intros Hx Hk Hmax. unfold mul, of_uint64.
  rewrite (DurationFacts.wrap_small x)
    by (unfold in_range, minDuration, maxDuration in *; nia).
  apply DurationFacts.wrap_small.
  unfold in_range, minDuration, maxDuration in *; nia.
Qed.

Lemma scaled_twice x k1 k2 :
  0 <= x -> 0 < k1 -> 0 < k2 -> x * (k1 * k2) <= maxDuration ->
  mul (mul (of_uint64 x) k1) k2 = x * (k1 * k2).
Proof.
  intros Hx Hk1 Hk2 Hmax.
  rewrite scaled_once by (unfold maxDuration in *; nia).
  unfold mul. rewrite DurationFacts.wrap_small; [ring|].
  unfold in_range, minDuration, maxDuration in *; nia.
Qed.

Lemma cap_range (cap r : Z) :
  0 <= cap -> 0 <= r -> 0 <= (if cap <? r then cap else r) <= cap.
Proof. intros Hc Hr. destruct (Z.ltb_spec cap r); lia. Qed.

(** While no product wraps, both intervals are inside their bounds. *)
Lemma intervals_within_bounds_without_overflow score metrics :
  no_overflow score metrics ->
  100 * Millisecond <= tick_interval baseInterval score metrics <= baseInterval
  /\ 5 * Second <= spawn_interval metrics <= 15 * Second.
Proof.
  unfold no_overflow.
  intros (Hs & Hs' & He & He' & Hp & Hp' & Hr & Hr' & Hc & Hc' & Hf & Hf').
  split.
  - split; [apply tick_interval_floor|].
    unfold tick_interval, scoreSpeedReduction, execveSpeedReduction,
      processSpeedReduction, rateSpeedReduction, loadSpeedReduction.
    cbv zeta. unfold of_int. fold (of_uint64 score).
    rewrite !scaled_twice, !scaled_once
      by (try apply Z.div_pos;
          unfold Millisecond, Microsecond, Nanosecond; lia).
    pose proof (Z.div_pos (processCount metrics) 3 Hp ltac:(lia)) as Hp3.
    pose proof (Z.div_pos (contextSwitchCount metrics) 1500 Hc ltac:(lia)) as Hc3.
    pose proof (cap_range (30 * Millisecond)
                  (execveCount metrics * (500 * Microsecond))
                  ltac:(unfold Millisecond, Microsecond, Nanosecond; lia)
                  ltac:(unfold Millisecond, Microsecond, Nanosecond; lia)) as Be.
    pose proof (cap_range (25 * Millisecond)
                  (processCount metrics / 3 * Millisecond)
                  ltac:(unfold Millisecond, Microsecond, Nanosecond; lia)
                  ltac:(unfold Millisecond, Microsecond, Nanosecond; lia)) as Bp.
    pose proof (cap_range (30 * Millisecond)
                  (eventRate metrics * (1 * Millisecond))
                  ltac:(unfold Millisecond, Microsecond, Nanosecond; lia)
                  ltac:(unfold Millisecond, Microsecond, Nanosecond; lia)) as Br.
    pose proof (cap_range (15 * Millisecond)
                  (contextSwitchCount metrics / 1500 * Millisecond)
                  ltac:(unfold Millisecond, Microsecond, Nanosecond; lia)
                  ltac:(unfold Millisecond, Microsecond, Nanosecond; lia)) as Bc.
    revert Be Bp Br Bc.
    generalize (if 30 * Millisecond <? execveCount metrics * (500 * Microsecond)
                then 30 * Millisecond
                else execveCount metrics * (500 * Microsecond)).
    generalize (if 25 * Millisecond <? processCount metrics / 3 * Millisecond
                then 25 * Millisecond
                else processCount metrics / 3 * Millisecond).
    generalize (if 30 * Millisecond <? eventRate metrics * (1 * Millisecond)
                then 30 * Millisecond
                else eventRate metrics * (1 * Millisecond)).
    generalize (if 15 * Millisecond <? contextSwitchCount metrics / 1500 * Millisecond
                then 15 * Millisecond
                else contextSwitchCount metrics / 1500 * Millisecond).
    intros l r p e Be Bp Br Bc.
    unfold baseInterval, POLL_INTERVAL, Millisecond, Microsecond, Nanosecond in *.
    assert (Ha : 0 <= score * (1 * (1000 * (1000 * 1))) <= maxDuration) by lia.
    revert Ha. generalize (score * (1 * (1000 * (1000 * 1)))). intros a Ha.
    unfold maxDuration in Ha.
    rewrite (DurationFacts.sub_small _ a)
      by (unfold in_range, minDuration, maxDuration; lia).
    rewrite (DurationFacts.sub_small _ e)
      by (unfold in_range, minDuration, maxDuration; lia).
    rewrite (DurationFacts.sub_small _ p)
      by (unfold in_range, minDuration, maxDuration; lia).
    rewrite (DurationFacts.sub_small _ r)
      by (unfold in_range, minDuration, maxDuration; lia).
    rewrite (DurationFacts.sub_small _ l)
      by (unfold in_range, minDuration, maxDuration; lia).
    match goal with |- (if ?v <? ?f then _ else _) <= _ =>
      destruct (Z.ltb_spec v f) end; lia.
  - split; [apply spawn_interval_floor|].
    unfold spawn_interval. cbv zeta.
    pose proof (Z.div_pos (fileOpsCount metrics) 50 Hf ltac:(lia)) as Hf3.
    rewrite scaled_twice
      by (unfold Millisecond, Microsecond, Nanosecond; lia).
    pose proof (cap_range (3 * Second)
                  (fileOpsCount metrics / 50 * (100 * Millisecond))
                  ltac:(unfold Second, Millisecond, Microsecond, Nanosecond; lia)
                  ltac:(unfold Second, Millisecond, Microsecond, Nanosecond; lia)) as Bf.
    revert Bf.
    generalize (if 3 * Second <? fileOpsCount metrics / 50 * (100 * Millisecond)
                then 3 * Second
                else fileOpsCount metrics / 50 * (100 * Millisecond)).
    intros b Bf.
    unfold Second, Millisecond, Microsecond, Nanosecond in *.
    rewrite (DurationFacts.sub_small _ b)
      by (unfold in_range, minDuration, maxDuration; lia).
    match goal with |- (if ?v <? ?f then _ else _) <= _ =>
      destruct (Z.ltb_spec v f) end; lia.
Qed.

(** C1 fails on the code when a [Duration] product wraps: with
    eventRate = 2^64 - 1 the rate reduction is -1ms and the tick interval
    is 351ms, above baseInterval = 350ms, and the tick that samples it
    reschedules the ticker to 351ms; with processCount = 27670116111618 the
    tick interval is 9223372036853551616ns; with fileOpsCount = 2^64 - 1 the
    bonus is -32ms and the spawn interval is 15032ms, above 15000ms. *)
Theorem intervals_escape_bounds_on_overflow :
  tick_interval baseInterval 0 (mkMetrics 0 0 0 0 0 U64.max 0)
  = 351 * Millisecond
  /\ baseInterval < tick_interval baseInterval 0 (mkMetrics 0 0 0 0 0 U64.max 0)
  /\ rescheduled
       (snd (cycle (mkInput 0 0 0
                      (mkMaps (Some (LookupOk 0)) (Some (LookupOk 0))
                              (Some (LookupOk 0)) (Some (LookupOk 0))
                              (Some (LookupOk 0)) (Some (LookupOk U64.max)))
                      true 0)
                   (init_loop 0)))
     = Some (351 * Millisecond)
  /\ tick_interval baseInterval 0 (mkMetrics 0 0 0 27670116111618 0 0 0)
     = 9223372036853551616
  /\ spawn_interval (mkMetrics 0 U64.max 0 0 0 0 0) = 15032 * Millisecond
  /\ 15 * Second < spawn_interval (mkMetrics 0 U64.max 0 0 0 0 0).
Proof. repeat split; vm_compute; reflexivity. Qed.

End ControlFacts.

(** ** Probe attachment *)

Module AttachFacts.

Import Attach.

Section AttachAllKprobes.

Variables Program Link : Type.
Variable Kprobe : string -> Program -> option Link.
Variable Programs : gmap string Program.

Local Abbreviation try_probe_names := (try_probe_names Program Link Kprobe).
Local Abbreviation attach_block := (attach_block Program Link Kprobe Programs).
Local Abbreviation attachAllKprobes := (attachAllKprobes Program Link Kprobe Programs).
Local Abbreviation first_link := (first_link Program Link Kprobe).
Local Abbreviation bound_link := (bound_link Program Link Kprobe Programs).
Local Abbreviation first_success := (first_success Program Link Kprobe).
Local Abbreviation class_outcome := (class_outcome Program Link Kprobe Programs).
Local Abbreviation option_list := (option_list Link).

(** The loop appends the first link that attaches and nothing else. *)
Lemma try_probe_names_first names prog links :
  try_probe_names names prog links
  = links ++ option_list (first_link names prog).
Proof.
  induction names as [|name rest IH]; simpl.
  - now rewrite app_nil_r.
  - destruct (Kprobe name prog); [reflexivity|exact IH].
Qed.

Lemma first_link_some names prog kp :
  first_link names prog = Some kp -> first_success prog names kp.
Proof.
  induction names as [|name rest IH]; simpl; [discriminate|].
  destruct (Kprobe name prog) as [kp'|] eqn:Hk.
  - intros [= <-]. exists [], name, rest. repeat split; [constructor|exact Hk].
  - intros Hrest. destruct (IH Hrest) as (before & n & after & -> & Hb & Hn).
    exists (name :: before), n, after.
    repeat split; [constructor; assumption|exact Hn].
Qed.

Lemma first_link_none names prog :
  first_link names prog = None <->
  Forall (fun n => Kprobe n prog = None) names.
Proof.
  induction names as [|name rest IH]; simpl.
  - split; [constructor|reflexivity].
  - destruct (Kprobe name prog) as [kp'|] eqn:Hk.
    + split; [discriminate|]. intros H. inversion H; congruence.
    + rewrite IH. split.
      * intros H. constructor; assumption.
      * intros H. now inversion H.
Qed.

Lemma bound_link_outcome c : class_outcome c (bound_link c).
Proof.
  unfold Attach.class_outcome, Attach.bound_link.
  destruct (Programs !! handler_of c) as [prog|]; [|reflexivity].
  destruct (first_link (candidates c) prog) as [kp|] eqn:Hf.
  - now apply first_link_some.
  - now apply first_link_none.
Qed.

Lemma bound_link_none c : bound_link c = None <-> class_outcome c None.
Proof.
  unfold Attach.class_outcome, Attach.bound_link.
  destruct (Programs !! handler_of c) as [prog|]; [|tauto].
  apply first_link_none.
Qed.

Lemma attach_block_bound c links :
  attach_block (handler_of c) (candidates c) links
  = links ++ option_list (bound_link c).
Proof.
  unfold Attach.attach_block, Attach.bound_link.
  destruct (Programs !! handler_of c) as [prog|].
  - apply try_probe_names_first.
  - now rewrite app_nil_r.
Qed.

(** The links the function collects: the bound link of each class, in the
    order of the five blocks. *)
Lemma attachAllKprobes_links :
  attachAllKprobes
  = match omap bound_link all_classes with
    | [] => Failed "failed to attach any kprobes"
    | links => Attached links
    end.
Proof.
  unfold Attach.attachAllKprobes.
  change (attach_block "handle_execve"
            ["sys_enter_execve"; "__x64_sys_execve"; "__arm64_sys_execve";
             "__s390x_sys_execve"; "__x86_sys_execve"]%string)
    with (attach_block (handler_of ClassExecve) (candidates ClassExecve)).
  change (attach_block "handle_file_open"
            ["do_sys_openat2"; "do_sys_open"; "__x64_sys_openat"]%string)
    with (attach_block (handler_of ClassFileOpen) (candidates ClassFileOpen)).
  change (attach_block "handle_network_connect"
            ["tcp_v4_connect"; "tcp_v6_connect"]%string)
    with (attach_block (handler_of ClassNetworkConnect)
            (candidates ClassNetworkConnect)).
  change (attach_block "handle_process_fork"
            ["_do_fork"; "kernel_clone"; "__x64_sys_clone"]%string)
    with (attach_block (handler_of ClassProcessFork)
            (candidates ClassProcessFork)).
  cbv zeta. rewrite !attach_block_bound.
  assert (Hcs : forall links : list Link,
            match Programs !! "handle_context_switch"%string with
            | Some prog =>
                match Kprobe "__schedule" prog with
                | Some kp => links ++ [kp]
                | None => links
                end
            | None => links
            end = links ++ option_list (bound_link ClassContextSwitch)).
  { intros links. unfold Attach.bound_link. simpl.
    destruct (Programs !! "handle_context_switch"%string) as [prog|];
      [|now rewrite app_nil_r].
    destruct (Kprobe "__schedule" prog); [reflexivity|now rewrite app_nil_r]. }
  rewrite Hcs. simpl app.
  unfold all_classes. cbn [omap list_omap].
  destruct (bound_link ClassExecve), (bound_link ClassFileOpen),
    (bound_link ClassNetworkConnect), (bound_link ClassProcessFork),
    (bound_link ClassContextSwitch); reflexivity.
Qed.

Lemma omap_nil_all (f : event_class -> option Link) :
  omap f all_classes = [] <-> forall c, f c = None.
Proof.
  unfold all_classes. cbn [omap list_omap]. split.
  - intros H c.
    destruct (f ClassExecve) eqn:H1; [discriminate|].
    destruct (f ClassFileOpen) eqn:H2; [discriminate|].
    destruct (f ClassNetworkConnect) eqn:H3; [discriminate|].
    destruct (f ClassProcessFork) eqn:H4; [discriminate|].
    destruct (f ClassContextSwitch) eqn:H5; [discriminate|].
    destruct c; assumption.
  - intros H. now rewrite !H.
Qed.

(** C7: each class is bound to the first of its ordered candidates that
    attaches, or skipped when its program is missing or no candidate
    attaches; the function returns the bound links of the classes in order,
    and it returns an error, the only one it has, exactly when no class is
    bound. *)
Theorem attach_is_best_effort :
  (forall c, class_outcome c (bound_link c))
  /\ (forall links, attachAllKprobes = Attached links <->
        links = omap bound_link all_classes /\ links <> [])
  /\ (forall err, attachAllKprobes = Failed err <->
        err = "failed to attach any kprobes"%string /\
        forall c, class_outcome c None).
Proof.
  split; [exact bound_link_outcome|].
  rewrite attachAllKprobes_links.
  pose proof (omap_nil_all bound_link) as Hnil.
  destruct (omap bound_link all_classes) as [|kp rest] eqn:Hlinks.
  - split.
    + intros links. split; [discriminate|]. intros [-> Hne]. congruence.
    + intros err. split.
      * intros [= <-]. split; [reflexivity|].
        intros c. apply bound_link_none. now apply Hnil.
      * intros [-> _]. reflexivity.
  - split.
    + intros links. split.
      * intros [= <-]. split; [reflexivity|discriminate].
      * intros [-> _]. reflexivity.
    + intros err. split; [discriminate|].
      intros [_ Hall]. exfalso.
      assert (Hnone : forall c, bound_link c = None).
      { intros c. apply bound_link_none, Hall. }
      apply Hnil in Hnone. discriminate.
Qed.

End AttachAllKprobes.

End AttachFacts.

(** ** More on the tracer: buckets, eviction, capacity *)

Module TracerMoreFacts.

Import Tracer TracerAux TracerFacts.

(** *** Capacity of [recent_events] *)

Lemma hash_update_size key value (m : gmap Z Z) :
  (size m <= recent_events_max_entries)%nat ->
  (size (hash_update key value m) <= recent_events_max_entries)%nat.
Proof.
  intros Hm. unfold hash_update.
  destruct (m !! key) as [old|] eqn:Hk.
  - rewrite map_size_insert_Some by eauto. exact Hm.
  - destruct (Nat.ltb_spec (size m) recent_events_max_entries) as [Hlt|Hge].
    + rewrite map_size_insert_None by assumption. lia.
    + exact Hm.
Qed.

Lemma increment_event_bucket_size t st :
  (size (recent_events st) <= recent_events_max_entries)%nat ->
  (size (recent_events (increment_event_bucket t st))
   <= recent_events_max_entries)%nat.
Proof.
  intros Hm. rewrite increment_event_bucket_buckets.
  destruct (recent_events st !! seconds_of t) as [count|] eqn:Hk.
  - rewrite map_size_insert_Some by eauto. exact Hm.
  - now apply hash_update_size.
Qed.

Lemma fire_buckets p st :
  recent_events (fire p st)
  = match p with
    | Execve t_bucket t_rate =>
        hash_delete (U64.sub (seconds_of t_rate) 10)
          (recent_events (increment_event_bucket t_bucket st))
    | FileOpen t_bucket | NetworkConnect t_bucket | ProcessFork t_bucket =>
        recent_events (increment_event_bucket t_bucket st)
    | ContextSwitch => recent_events st
    end.
Proof.
  destruct p; simpl fire.
  - apply handle_execve_buckets.
  - destruct st; unfold_handlers; simpl; repeat case_match; reflexivity.
  - destruct st; unfold_handlers; simpl; repeat case_match; reflexivity.
  - destruct st; unfold_handlers; simpl; repeat case_match; reflexivity.
  - destruct st; unfold_handlers; simpl; repeat case_match; reflexivity.
Qed.

Lemma fire_size p st :
  (size (recent_events st) <= recent_events_max_entries)%nat ->
  (size (recent_events (fire p st)) <= recent_events_max_entries)%nat.
Proof.
  intros Hm. rewrite fire_buckets. destruct p;
    try (now apply increment_event_bucket_size); [|exact Hm].
  unfold hash_delete. eapply Nat.le_trans.
  - apply map_subseteq_size, delete_subseteq.
  - now apply increment_event_bucket_size.
Qed.

(** X1: whatever probes fire, in whatever order and at whatever times, the
    [recent_events] map never holds more than its 100 entries. *)
Theorem buckets_stay_within_capacity (ps : list probe) (st : state) :
  (size (recent_events st) <= recent_events_max_entries)%nat ->
  (size (recent_events (run ps st)) <= recent_events_max_entries)%nat.
Proof.
  revert st. induction ps as [|p ps IH]; intros st Hm; [exact Hm|].
  rewrite run_cons. apply IH. now apply fire_size.
Qed.

Lemma buckets_stay_within_capacity_witness :
  (size (recent_events
           (run [Execve 1000000000 1000000001; FileOpen 2000000000;
                 ContextSwitch; Execve 12000000000 12000000001]
                init_state))
   <= recent_events_max_entries)%nat.
Proof.
  apply buckets_stay_within_capacity.
  simpl. rewrite map_size_empty. unfold recent_events_max_entries. lia.
Defined.

(** *** Counters do not depend on the buckets *)

(** X2: a firing adds 1 (modulo 2^64) to the counter of its own class and
    leaves the other four counters alone, also when the bucket map is full
    or the bucket update fails; the context-switch firing changes its
    counter by the throttling rule. *)
Theorem firing_touches_only_its_counter (st : state) (t_bucket t_rate : Z) :
  counters_of (fire (Execve t_bucket t_rate) st)
  = (U64.add (execve_counter st) 1, file_ops_counter st, network_counter st,
     process_counter st, context_switch_counter st)
  /\ counters_of (fire (FileOpen t_bucket) st)
     = (execve_counter st, U64.add (file_ops_counter st) 1, network_counter st,
        process_counter st, context_switch_counter st)
  /\ counters_of (fire (NetworkConnect t_bucket) st)
     = (execve_counter st, file_ops_counter st, U64.add (network_counter st) 1,
        process_counter st, context_switch_counter st)
  /\ counters_of (fire (ProcessFork t_bucket) st)
     = (execve_counter st, file_ops_counter st, network_counter st,
        U64.add (process_counter st) 1, context_switch_counter st)
  /\ counters_of (fire ContextSwitch st)
     = (execve_counter st, file_ops_counter st, network_counter st,
        process_counter st, context_switch_next (context_switch_counter st)).
Proof.
  destruct st as [e f n pr c r m]. unfold counters_of, context_switch_next.
  repeat split; simpl fire; unfold_handlers; simpl;
    repeat case_match; reflexivity.
Qed.

(** *** The rate and the buckets after an exec firing *)

Lemma handle_execve_rate_after st t_bucket t_rate :
  event_rate (handle_execve t_bucket t_rate st)
  = default 0 (recent_events (handle_execve t_bucket t_rate st)
                 !! seconds_of t_rate).
Proof.
  rewrite handle_execve_rate, handle_execve_buckets. unfold hash_delete.
  rewrite lookup_delete_ne by apply U64Facts.sub_ten_differs. reflexivity.
Qed.

(** X3: right after an exec firing the Rate slot equals the bucket of the
    second that [update_event_rate] read, as the map stands after the
    firing, and 0 when that bucket does not exist (for instance when the
    two clock readings straddle a second boundary). *)
Theorem rate_is_bucket_of_read_second (st : state) (t_bucket t_rate : Z) :
  event_rate (handle_execve t_bucket t_rate st)
  = default 0 (recent_events (handle_execve t_bucket t_rate st)
                 !! seconds_of t_rate).
Proof. apply handle_execve_rate_after. Qed.

(** X4: when the map is full and the current second has no bucket, an exec
    firing in that second is counted by the exec counter but not by the
    rate estimator: no bucket is created and Rate becomes 0. *)
Theorem full_map_drops_event (st : state) (s t_bucket t_rate : Z) :
  size (recent_events st) = recent_events_max_entries ->
  recent_events st !! s = None ->
  seconds_of t_bucket = s -> seconds_of t_rate = s ->
  event_rate (handle_execve t_bucket t_rate st) = 0
  /\ recent_events (handle_execve t_bucket t_rate st) !! s = None
  /\ execve_counter (handle_execve t_bucket t_rate st)
     = U64.add (execve_counter st) 1.
Proof.
  intros Hfull Hnew Hb Hr.
  assert (Hbuckets : recent_events (increment_event_bucket t_bucket st)
                     = recent_events st).
  { rewrite increment_event_bucket_buckets, Hb, Hnew.
    unfold hash_update. rewrite Hnew, Hfull. reflexivity. }
  split; [|split].
  - rewrite handle_execve_rate, Hbuckets, Hr, Hnew. reflexivity.
  - rewrite handle_execve_buckets, Hbuckets, Hr. unfold hash_delete.
    rewrite lookup_delete_ne by apply U64Facts.sub_ten_differs. exact Hnew.
  - destruct st as [e f n pr c r m].
    unfold_handlers; simpl; repeat case_match; reflexivity.
Qed.

Lemma full_map_drops_event_witness :
  let st := mkState 7 0 0 0 0 3 full_buckets in
  event_rate (handle_execve 500000000000 500000000001 st) = 0
  /\ recent_events (handle_execve 500000000000 500000000001 st) !! 500 = None
  /\ execve_counter (handle_execve 500000000000 500000000001 st)
     = U64.add (execve_counter st) 1.
Proof.
  apply (full_map_drops_event _ 500).
  - vm_compute. reflexivity.
  - vm_compute. reflexivity.
  - reflexivity.
  - reflexivity.
Defined.

(** X5: an exec firing removes the bucket of the second ten before the one
    [update_event_rate] reads, and leaves every bucket other than that one
    and the one it counts in as it was. *)
Theorem execve_evicts_one_bucket (st : state) (t_bucket t_rate : Z) :
  recent_events (handle_execve t_bucket t_rate st)
    !! U64.sub (seconds_of t_rate) 10 = None
  /\ forall k,
       k <> seconds_of t_bucket -> k <> U64.sub (seconds_of t_rate) 10 ->
       recent_events (handle_execve t_bucket t_rate st) !! k
       = recent_events st !! k.
Proof.
  rewrite handle_execve_buckets. unfold hash_delete. split.
  - apply lookup_delete_eq.
  - intros k Hk Hold. rewrite lookup_delete_ne by congruence.
    rewrite increment_event_bucket_buckets.
    destruct (recent_events st !! seconds_of t_bucket).
    + now rewrite lookup_insert_ne by congruence.
    + unfold hash_update. repeat case_match; try reflexivity;
        now rewrite lookup_insert_ne by congruence.
Qed.

Lemma increment_event_bucket_keeps k t st :
  is_Some (recent_events st !! k) ->
  is_Some (recent_events (increment_event_bucket t st) !! k).
Proof.
  intros Hk. rewrite increment_event_bucket_buckets.
  destruct (recent_events st !! seconds_of t) as [count|] eqn:Ht.
  - destruct (decide (seconds_of t = k)) as [->|Hne].
    + rewrite lookup_insert_eq. eauto.
    + now rewrite lookup_insert_ne.
  - unfold hash_update. rewrite Ht.
    destruct (size (recent_events st) <? recent_events_max_entries)%nat;
      [|exact Hk].
    destruct (decide (seconds_of t = k)) as [->|Hne].
    + rewrite lookup_insert_eq. eauto.
    + now rewrite lookup_insert_ne.
Qed.

(** X6: the only firing that can remove an existing bucket [k] is an exec
    firing whose rate reading is in the second ten after [k]; no other
    firing ever evicts, so a bucket whose second is not followed, exactly
    ten seconds later, by an exec firing stays in the map. *)
Theorem only_execve_ten_seconds_later_evicts
    (st : state) (p : probe) (k : Z) :
  is_Some (recent_events st !! k) ->
  recent_events (fire p st) !! k = None ->
  exists t_bucket t_rate,
    p = Execve t_bucket t_rate /\ U64.sub (seconds_of t_rate) 10 = k.
Proof.
  intros Hk Hgone. rewrite fire_buckets in Hgone.
  destruct p as [tb tr|tb|tb|tb|].
  - exists tb, tr. split; [reflexivity|].
    destruct (decide (U64.sub (seconds_of tr) 10 = k)) as [Heq|Hne];
      [exact Heq|].
    unfold hash_delete in Hgone. rewrite lookup_delete_ne in Hgone by exact Hne.
    destruct (increment_event_bucket_keeps k tb st Hk) as [v Hv]. congruence.
  - destruct (increment_event_bucket_keeps k tb st Hk) as [v Hv]. congruence.
  - destruct (increment_event_bucket_keeps k tb st Hk) as [v Hv]. congruence.
  - destruct (increment_event_bucket_keeps k tb st Hk) as [v Hv]. congruence.
  - destruct Hk as [v Hv]. congruence.
Qed.

Lemma only_execve_ten_seconds_later_evicts_witness :
  exists t_bucket t_rate,
    Execve 15000000000 15000000001 = Execve t_bucket t_rate
    /\ U64.sub (seconds_of t_rate) 10 = 5.
Proof.
  apply (only_execve_ten_seconds_later_evicts
           (mkState 1 0 0 0 0 1 {[5 := 1]}) (Execve 15000000000 15000000001) 5).
  - simpl. rewrite lookup_singleton_eq. eauto.
  - vm_compute. reflexivity.
Defined.

(** *** Counting the events of one second *)

Lemma fire_bucket_same_second s p st :
  reads_second s p ->
  recent_events (fire p st) !! s
  = if feeds_bucket p
    then match recent_events st !! s with
         | Some count => Some (U64.add count 1)
         | None =>
             if (size (recent_events st) <? recent_events_max_entries)%nat
             then Some 1
             else None
         end
    else recent_events st !! s.
Proof.
  intros Hp. rewrite fire_buckets.
  assert (Hinc : forall t, seconds_of t = s ->
            recent_events (increment_event_bucket t st) !! s
            = match recent_events st !! s with
              | Some count => Some (U64.add count 1)
              | None =>
                  if (size (recent_events st) <? recent_events_max_entries)%nat
                  then Some 1
                  else None
              end).
  { intros t Ht. rewrite increment_event_bucket_buckets, Ht.
    destruct (recent_events st !! s) as [count|] eqn:Hs.
    - apply lookup_insert_eq.
    - unfold hash_update. rewrite Hs.
      destruct (size (recent_events st) <? recent_events_max_entries)%nat;
        [apply lookup_insert_eq|exact Hs]. }
  destruct p as [tb tr|tb|tb|tb|]; simpl in Hp; simpl feeds_bucket;
    try (now apply Hinc); [|reflexivity].
  destruct Hp as [Hb Hr]. unfold hash_delete. rewrite Hr.
  rewrite lookup_delete_ne by apply U64Facts.sub_ten_differs.
  now apply Hinc.
Qed.

Lemma bucket_events_cons p ps :
  bucket_events (p :: ps)
  = (if feeds_bucket p then 1 else 0) + bucket_events ps.
Proof.
  unfold bucket_events. rewrite filter_cons.
  destruct (feeds_bucket p); case_decide; try congruence;
    rewrite ?length_cons; lia.
Qed.

Lemma bucket_events_nonneg ps : 0 <= bucket_events ps.
Proof. unfold bucket_events. lia. Qed.

(** A bucket that exists grows by the number of feeding firings. *)
Lemma run_bucket_existing s ps : forall st count,
  Forall (reads_second s) ps ->
  recent_events st !! s = Some count ->
  0 <= count -> count + bucket_events ps < U64.modulus ->
  recent_events (run ps st) !! s = Some (count + bucket_events ps).
Proof.
  induction ps as [|p ps IH]; intros st count Hall Hs Hc Hlim.
  - simpl. rewrite Hs. f_equal. unfold bucket_events. simpl. lia.
  - inversion Hall as [|? ? Hp Hps]; subst.
    rewrite bucket_events_cons in *. pose proof (bucket_events_nonneg ps).
    rewrite run_cons.
    pose proof (fire_bucket_same_second s p st Hp) as Hfire.
    rewrite Hs in Hfire. destruct (feeds_bucket p).
    + rewrite U64Facts.add_no_wrap in Hfire by lia.
      rewrite (IH _ _ Hps Hfire) by lia. f_equal. lia.
    + rewrite (IH _ _ Hps Hfire) by lia. f_equal.
Qed.

Lemma run_bucket_new s ps : forall st,
  Forall (reads_second s) ps ->
  recent_events st !! s = None ->
  (size (recent_events st) < recent_events_max_entries)%nat ->
  bucket_events ps < U64.modulus ->
  (bucket_events ps = 0 /\ recent_events (run ps st) = recent_events st)
  \/ (0 < bucket_events ps
      /\ recent_events (run ps st) !! s = Some (bucket_events ps)).
Proof.
  induction ps as [|p ps IH]; intros st Hall Hs Hroom Hlim.
  - left. split; reflexivity.
  - inversion Hall as [|? ? Hp Hps]; subst.
    rewrite bucket_events_cons in *. pose proof (bucket_events_nonneg ps).
    rewrite run_cons.
    pose proof (fire_bucket_same_second s p st Hp) as Hfire.
    rewrite Hs in Hfire. apply Nat.ltb_lt in Hroom as Hroomb.
    rewrite Hroomb in Hfire.
    destruct (feeds_bucket p) eqn:Hfeeds.
    + right. split; [lia|].
      now rewrite (run_bucket_existing s ps _ 1 Hps Hfire) by lia.
    + assert (Hsame : recent_events (fire p st) = recent_events st).
      { destruct p; try discriminate. now rewrite fire_buckets. }
      destruct (IH (fire p st) Hps) as [[H0 Heq]|[Hpos Hval]];
        try (rewrite Hsame; assumption); try lia.
      * left. split; [lia|]. now rewrite Heq.
      * right. split; [lia|]. rewrite Hval. f_equal.
Qed.

(** X7: starting with no bucket for second [s] and room in the map, after
    any sequence of firings whose clock readings all fall in [s] the bucket
    of [s] holds the number of exec, file-open, connect and fork firings of
    the sequence (and does not exist while there were none), and an exec
    firing in the same second then sets Rate to that number plus one. *)
Theorem bucket_counts_events_of_second
    (st : state) (s : Z) (ps : list probe) (t_bucket t_rate : Z) :
  Forall (reads_second s) ps ->
  seconds_of t_bucket = s -> seconds_of t_rate = s ->
  recent_events st !! s = None ->
  (size (recent_events st) < recent_events_max_entries)%nat ->
  bucket_events ps + 1 < U64.modulus ->
  recent_events (run ps st) !! s
  = (if bucket_events ps =? 0 then None else Some (bucket_events ps))
  /\ event_rate (fire (Execve t_bucket t_rate) (run ps st))
     = bucket_events ps + 1.
Proof.
  intros Hall Hb Hr Hs Hroom Hlim.
  assert (Hbucket :
            recent_events (run ps st) !! s
            = if bucket_events ps =? 0 then None else Some (bucket_events ps)).
  { destruct (run_bucket_new s ps st Hall Hs Hroom ltac:(lia))
      as [[H0 Heq]|[Hpos Hval]].
    - rewrite H0, Heq. exact Hs.
    - rewrite Hval. destruct (Z.eqb_spec (bucket_events ps) 0); [lia|reflexivity]. }
  split; [exact Hbucket|].
  simpl fire. rewrite handle_execve_rate_after, Hr.
  pose proof (fire_bucket_same_second s (Execve t_bucket t_rate) (run ps st)
                (conj Hb Hr)) as Hfire.
  simpl fire in Hfire. simpl feeds_bucket in Hfire. rewrite Hfire.
  destruct (run_bucket_new s ps st Hall Hs Hroom ltac:(lia))
    as [[H0 Heq]|[Hpos Hval]].
  - rewrite Heq, Hs. apply Nat.ltb_lt in Hroom. rewrite Hroom, H0. reflexivity.
  - rewrite Hval. simpl. apply U64Facts.add_no_wrap. lia.
Qed.

Lemma bucket_counts_events_of_second_witness :
  let ps := [FileOpen 4100000000; ContextSwitch; ProcessFork 4200000000;
             Execve 4300000000 4300000500; NetworkConnect 4900000000] in
  recent_events (run ps init_state) !! 4
  = (if bucket_events ps =? 0 then None else Some (bucket_events ps))
  /\ event_rate (fire (Execve 4950000000 4950000100) (run ps init_state))
     = bucket_events ps + 1.
Proof.
  apply (bucket_counts_events_of_second init_state 4).
  - repeat constructor.
  - reflexivity.
  - reflexivity.
  - apply lookup_empty.
  - simpl. rewrite map_size_empty. unfold recent_events_max_entries. lia.
  - vm_compute. reflexivity.
Defined.

(** *** The context-switch counter from any value *)

Lemma context_switch_next_plus_one v :
  0 <= v -> v mod 100 <> 0 -> v + 1 < U64.modulus ->
  context_switch_next v = v + 1.
Proof.
  intros Hv Hr Hlim. unfold context_switch_next.
  destruct (Z.eqb_spec (v mod 100) 0); [contradiction|].
  apply U64Facts.add_no_wrap. lia.
Qed.

Lemma context_switch_climbs (k : N) : forall v,
  0 <= v -> v mod 100 <> 0 ->
  Z.of_N k <= 100 - v mod 100 -> v + Z.of_N k < U64.modulus ->
  N.iter k context_switch_next v = v + Z.of_N k.
Proof.
  induction k as [|k IH] using N.peano_ind; intros v Hv Hr Hk Hlim.
  - simpl. lia.
  - rewrite N.iter_succ, IH by lia.
    rewrite context_switch_next_plus_one; try lia.
    rewrite N2Z.inj_succ in Hk.
    assert (Hmod : (v + Z.of_N k) mod 100 = v mod 100 + Z.of_N k).
    { pose proof (Z.mod_pos_bound v 100 ltac:(lia)).
      rewrite Z.add_mod by lia.
      rewrite (Z.mod_small (Z.of_N k)) by lia.
      apply Z.mod_small. lia. }
    rewrite Hmod. pose proof (Z.mod_pos_bound v 100 ltac:(lia)). lia.
Qed.

Lemma context_switch_hundreds_from (n : N) : forall k,
  0 <= k -> 100 * (k + Z.of_N n) < U64.modulus ->
  N.iter n context_switch_next (100 * k) = 100 * (k + Z.of_N n).
Proof.
  induction n as [|n IH] using N.peano_ind; intros k Hk Hlim.
  - simpl. f_equal. lia.
  - rewrite N.iter_succ, IH by lia.
    rewrite context_switch_next_hundred by lia. f_equal. lia.
Qed.

(** X8: from any counter value that is not a multiple of 100 (as after a
    wrap-around, or a value written from outside), the context-switch
    counter goes up by 1 per firing until it reaches the next multiple of
    100, and from there by 100 per firing, as long as it stays below
    2^64. *)
Theorem context_switch_settles_on_hundreds (st : state) (n : N) :
  let v := context_switch_counter st in
  let gap := 100 - v mod 100 in
  0 <= v -> v mod 100 <> 0 ->
  v + gap + 100 * Z.of_N n < U64.modulus ->
  context_switch_counter (fire_context_switch (Z.to_N gap) st) = v + gap
  /\ (v + gap) mod 100 = 0
  /\ context_switch_counter (fire_context_switch (n + Z.to_N gap) st)
     = v + gap + 100 * Z.of_N n.
Proof.
  intros v gap Hv Hr Hlim.
  pose proof (Z.mod_pos_bound v 100 ltac:(lia)) as Hb.
  assert (Hgap : 0 < gap <= 100) by (unfold gap; lia).
  assert (Hclimb : N.iter (Z.to_N gap) context_switch_next v = v + gap).
  { rewrite context_switch_climbs; rewrite ?Z2N.id; unfold gap in *; lia. }
  assert (Hmult : v + gap = 100 * (v / 100 + 1)).
  { unfold gap. rewrite (Z.div_mod v 100) at 1 by lia. lia. }
  split; [|split].
  - rewrite fire_context_switch_counter. exact Hclimb.
  - rewrite Hmult. replace (100 * (v / 100 + 1)) with ((v / 100 + 1) * 100) by lia.
    apply Z.mod_mul. lia.
  - rewrite fire_context_switch_counter. fold v.
    rewrite N.iter_add, Hclimb, Hmult.
    assert (0 <= v / 100) by (apply Z.div_pos; lia).
    rewrite context_switch_hundreds_from by lia. lia.
Qed.

Lemma context_switch_settles_on_hundreds_witness :
  let st := mkState 0 0 0 0 84 0 ∅ in
  context_switch_counter (fire_context_switch (Z.to_N 16) st) = 84 + 16
  /\ (84 + 16) mod 100 = 0
  /\ context_switch_counter (fire_context_switch (2 + Z.to_N 16) st)
     = 84 + 16 + 100 * Z.of_N 2.
Proof.
  apply (context_switch_settles_on_hundreds (mkState 0 0 0 0 84 0 ∅) 2).
  - simpl. lia.
  - simpl. discriminate.
  - vm_compute. reflexivity.
Defined.

End TracerMoreFacts.

(** ** More on the control loop *)

Module ControlMoreFacts.

Import Duration Control ControlAux ControlFacts.

Ltac unfold_units :=
  unfold baseInterval, POLL_INTERVAL, Second, Millisecond, Microsecond,
    Nanosecond, in_range, minDuration, maxDuration in *.

(** *** The ticker interval *)

Lemma cycle_interval inp ls :
  100 * Millisecond <= currentInterval ls ->
  100 * Millisecond <= currentInterval (fst (cycle inp ls))
  /\ reschedule_ok (snd (cycle inp ls)).
Proof.
  intros Hcur. unfold cycle, reschedule_ok.
  destruct (timed_spawn _ _ _ _) as [g fired].
  destruct (update_changed inp); [|split; [exact Hcur|exact I]].
  cbv zeta.
  destruct (Z.eqb_spec
              (tick_interval baseInterval
                 (score (mkGame (update_score inp) (lastFoodSpawn g)
                           (ebpfMetrics g)))
                 (sample (t_sample inp) (maps inp)))
              (currentInterval ls)) as [Heq|Hne];
    cbn [fst snd rescheduled currentInterval].
  - split; [exact Hcur|exact I].
  - split; apply tick_interval_floor.
Qed.

(** X9: whatever the maps return and whatever the score, overflow
    included, the loop's [currentInterval] never goes below 100ms, and every
    interval a new ticker is created with is at least 100ms, hence
    positive. *)
Theorem ticker_interval_never_below_floor
    (inps : list cycle_input) (ls : loop_state) :
  100 * Millisecond <= currentInterval ls ->
  100 * Millisecond <= currentInterval (fst (run_cycles inps ls))
  /\ Forall reschedule_ok (snd (run_cycles inps ls)).
Proof.
  revert ls. induction inps as [|inp rest IH]; intros ls Hcur.
  - split; [exact Hcur|constructor].
  - rewrite run_cycles_cons. cbn [fst snd].
    destruct (cycle_interval inp ls Hcur) as [Hcur1 Hout].
    destruct (IH _ Hcur1) as [Hcur2 Houts].
    split; [exact Hcur2|constructor; assumption].
Qed.

Lemma ticker_interval_never_below_floor_witness :
  let wild := mkMaps (Some (LookupOk U64.max)) (Some (LookupOk U64.max))
                     None (Some (LookupOk 27670116111618))
                     (Some (LookupOk U64.max)) (Some (LookupOk U64.max)) in
  let inps := [mkInput 10 11 12 wild true 0;
               mkInput 20 21 22 wild true 9223372037206] in
  100 * Millisecond <= currentInterval (fst (run_cycles inps (init_loop 0)))
  /\ Forall reschedule_ok (snd (run_cycles inps (init_loop 0))).
Proof.
  cbv zeta. apply ticker_interval_never_below_floor.
  vm_compute. discriminate.
Defined.

(** X10: within one tick both decisions are taken on that tick's sample.
    The ticker is replaced exactly when [game.update()] reports a change
    and the tick interval of the sample differs from the current one, and
    then by that interval; otherwise [currentInterval] is kept. *)
Theorem reschedule_only_on_change (inp : cycle_input) (ls : loop_state) :
  let metrics := sample (t_sample inp) (maps inp) in
  let d := tick_interval baseInterval (update_score inp) metrics in
  (rescheduled (snd (cycle inp ls))
   = if update_changed inp && negb (d =? currentInterval ls)
     then Some d else None)
  /\ (currentInterval (fst (cycle inp ls))
      = if update_changed inp then d else currentInterval ls)
  /\ score (game (fst (cycle inp ls))) = update_score inp.
Proof.
  cbv zeta. unfold cycle.
  destruct (timed_spawn _ _ _ _) as [g fired].
  destruct (update_changed inp);
    cbn [fst snd rescheduled currentInterval game score andb negb];
    [|repeat split].
  destruct (Z.eqb_spec
              (tick_interval baseInterval (update_score inp)
                 (sample (t_sample inp) (maps inp)))
              (currentInterval ls)) as [Heq|Hne];
    cbn [fst snd rescheduled currentInterval game score andb negb];
    repeat split.
  symmetry. exact Heq.
Qed.

(** *** The timed spawn *)

(** X11: the timed spawn fires only when the sampled file-open count is
    positive and more than the spawn interval, hence more than 5 seconds,
    has passed on the clock since [lastFoodSpawn]; it then moves
    [lastFoodSpawn] to the new clock reading, and a tick that does not fire
    leaves [lastFoodSpawn] alone. *)
Theorem timed_spawn_spacing (inp : cycle_input) (ls : loop_state) :
  let metrics := sample (t_sample inp) (maps inp) in
  let elapsed := time_sub (t_since inp) (lastFoodSpawn (game ls)) in
  (spawned (snd (cycle inp ls)) = true ->
     0 < fileOpsCount metrics
     /\ spawn_interval metrics < elapsed
     /\ 5 * Second < elapsed
     /\ lastFoodSpawn (game (fst (cycle inp ls))) = t_spawn inp)
  /\ (spawned (snd (cycle inp ls)) = false ->
        lastFoodSpawn (game (fst (cycle inp ls))) = lastFoodSpawn (game ls)).
Proof.
  cbv zeta. unfold cycle, timed_spawn.
  cbn [lastFoodSpawn score ebpfMetrics].
  pose proof (spawn_interval_floor (sample (t_sample inp) (maps inp))) as Hfloor.
  destruct (Z.ltb_spec 0 (fileOpsCount (sample (t_sample inp) (maps inp))))
    as [Hpos|Hzero];
    [destruct (Z.ltb_spec (spawn_interval (sample (t_sample inp) (maps inp)))
                 (time_sub (t_since inp) (lastFoodSpawn (game ls))))
       as [Hlate|Hearly]|];
    destruct (update_changed inp);
    try match goal with
        | |- context [Z.eqb ?a ?b] => destruct (Z.eqb a b)
        end;
    cbn [fst snd spawned lastFoodSpawn game score ebpfMetrics];
    (split; intros Hs; [try discriminate|try discriminate; try reflexivity]).
  all: repeat split; try assumption; try reflexivity.
  all: lia.
Qed.

Lemma timed_spawn_spacing_witness :
  let inp := mkInput 20000000000 20000000001 20000000002
               (mkMaps (Some (LookupOk 3)) (Some (LookupOk 200)) None
                       (Some (LookupOk 1)) (Some (LookupOk 100))
                       (Some (LookupOk 2)))
               true 0 in
  let ls := init_loop 1000000000 in
  let metrics := sample (t_sample inp) (maps inp) in
  let elapsed := time_sub (t_since inp) (lastFoodSpawn (game ls)) in
  (spawned (snd (cycle inp ls)) = true ->
     0 < fileOpsCount metrics
     /\ spawn_interval metrics < elapsed
     /\ 5 * Second < elapsed
     /\ lastFoodSpawn (game (fst (cycle inp ls))) = t_spawn inp)
  /\ (spawned (snd (cycle inp ls)) = false ->
        lastFoodSpawn (game (fst (cycle inp ls))) = lastFoodSpawn (game ls)).
Proof.
  cbv zeta. apply timed_spawn_spacing.
Defined.

(** *** The intervals in closed form *)

Lemma cap_min (cap r : Z) : (if cap <? r then cap else r) = Z.min cap r.
Proof. destruct (Z.ltb_spec cap r); lia. Qed.

Lemma floor_max (floor v : Z) :
  (if v <? floor then floor else v) = Z.max floor v.
Proof. destruct (Z.ltb_spec v floor); lia. Qed.

Lemma sub_chain base a e p r l :
  0 <= base <= Second ->
  0 <= a <= maxDuration ->
  0 <= e -> 0 <= p -> 0 <= r -> 0 <= l -> e + p + r + l <= base ->
  sub (sub (sub (sub (sub base a) e) p) r) l = base - a - e - p - r - l.
Proof.
  intros Hb Ha He Hp Hr Hl Hsum. unfold sub. unfold_units.
  rewrite (DurationFacts.wrap_small (base - a))
    by (unfold in_range, minDuration, maxDuration; lia).
  rewrite (DurationFacts.wrap_small (base - a - e))
    by (unfold in_range, minDuration, maxDuration; lia).
  rewrite (DurationFacts.wrap_small (base - a - e - p))
    by (unfold in_range, minDuration, maxDuration; lia).
  rewrite (DurationFacts.wrap_small (base - a - e - p - r))
    by (unfold in_range, minDuration, maxDuration; lia).
  apply DurationFacts.wrap_small.
  unfold in_range, minDuration, maxDuration; lia.
Qed.

Lemma tick_interval_closed score metrics :
  no_overflow score metrics ->
  tick_interval baseInterval score metrics = closed_tick_interval score metrics.
Proof.
  unfold no_overflow.
  intros (Hs & Hs' & He & He' & Hp & Hp' & Hr & Hr' & Hc & Hc' & Hf & Hf').
  unfold tick_interval, closed_tick_interval, scoreSpeedReduction,
    execveSpeedReduction, processSpeedReduction, rateSpeedReduction,
    loadSpeedReduction.
  cbv zeta. unfold of_int. fold (of_uint64 score).
  pose proof (Z.div_pos (processCount metrics) 3 Hp ltac:(lia)) as Hp3.
  pose proof (Z.div_pos (contextSwitchCount metrics) 1500 Hc ltac:(lia)) as Hc3.
  rewrite !scaled_twice, !scaled_once
    by (unfold Millisecond, Microsecond, Nanosecond; lia).
  rewrite !cap_min, floor_max.
  rewrite sub_chain; unfold_units; lia.
Qed.

Lemma spawn_interval_closed score metrics :
  no_overflow score metrics ->
  spawn_interval metrics = closed_spawn_interval metrics.
Proof.
  unfold no_overflow.
  intros (Hs & Hs' & He & He' & Hp & Hp' & Hr & Hr' & Hc & Hc' & Hf & Hf').
  unfold spawn_interval, closed_spawn_interval. cbv zeta.
  pose proof (Z.div_pos (fileOpsCount metrics) 50 Hf ltac:(lia)) as Hf3.
  rewrite scaled_twice by (unfold Millisecond, Microsecond, Nanosecond; lia).
  rewrite cap_min, floor_max.
  unfold sub. rewrite DurationFacts.wrap_small by (unfold_units; lia).
  unfold_units. lia.
Qed.

(** X12: while no [Duration] product overflows, the code computes the
    two intervals exactly: the tick interval is 350ms minus 1ms per point
    of score and minus the four reductions, each capped on its own (30, 25,
    30, 15 ms), floored at 100ms; the spawn interval is 15s minus 100ms per
    50 file opens, the bonus capped at 3s. *)
Theorem intervals_closed_form (score : Z) (metrics : eBPFMetrics) :
  no_overflow score metrics ->
  tick_interval baseInterval score metrics = closed_tick_interval score metrics
  /\ spawn_interval metrics = closed_spawn_interval metrics.
Proof.
  intros H. split.
  - now apply tick_interval_closed.
  - now apply (spawn_interval_closed score).
Qed.

Lemma intervals_closed_form_witness :
  let metrics := mkMetrics 10 120 0 3 1500 2 0 in
  tick_interval baseInterval 5 metrics = closed_tick_interval 5 metrics
  /\ spawn_interval metrics = closed_spawn_interval metrics.
Proof.
  apply intervals_closed_form.
  unfold no_overflow. simpl. repeat split; vm_compute; discriminate.
Defined.

(** X13: while nothing overflows, the spawn interval stays between 12 and
    15 seconds, so the 5-second floor of the code is never the result; it
    is 15s below 50 file opens and 12s from 1500 file opens on.  The kernel
    metrics alone take at most 100ms off the tick: the tick interval is at
    least 250ms minus 1ms per point of score. *)
Theorem intervals_sharper_bounds (score : Z) (metrics : eBPFMetrics) :
  no_overflow score metrics ->
  12 * Second <= spawn_interval metrics <= 15 * Second
  /\ (fileOpsCount metrics < 50 -> spawn_interval metrics = 15 * Second)
  /\ (1500 <= fileOpsCount metrics -> spawn_interval metrics = 12 * Second)
  /\ 250 * Millisecond - score * Millisecond
     <= tick_interval baseInterval score metrics.
Proof.
  intros H.
  rewrite (spawn_interval_closed score metrics H).
  rewrite (tick_interval_closed score metrics H).
  unfold no_overflow in H.
  destruct H as (Hs & Hs' & He & He' & Hp & Hp' & Hr & Hr' & Hc & Hc' & Hf & Hf').
  unfold closed_spawn_interval, closed_tick_interval. unfold_units.
  pose proof (Z.div_pos (fileOpsCount metrics) 50 Hf ltac:(lia)) as Hf3.
  repeat split; try lia.
  - intros Hlt. rewrite Z.div_small by lia. lia.
  - intros Hge.
    assert (30 <= fileOpsCount metrics / 50)
      by (apply Z.div_le_lower_bound; lia).
    lia.
Qed.

Lemma intervals_sharper_bounds_witness :
  let metrics := mkMetrics 10 4000 0 3 1500 2 0 in
  12 * Second <= spawn_interval metrics <= 15 * Second
  /\ (fileOpsCount metrics < 50 -> spawn_interval metrics = 15 * Second)
  /\ (1500 <= fileOpsCount metrics -> spawn_interval metrics = 12 * Second)
  /\ 250 * Millisecond - 5 * Millisecond
     <= tick_interval baseInterval 5 metrics.
Proof.
  apply intervals_sharper_bounds.
  unfold no_overflow. simpl. repeat split; vm_compute; discriminate.
Defined.

(** X14: while nothing overflows for either input, more score and more
    activity never slow the game down: the tick interval and the spawn
    interval are non-increasing in the score and in every sampled metric. *)
Theorem intervals_monotone
    (score1 score2 : Z) (metrics1 metrics2 : eBPFMetrics) :
  no_overflow score1 metrics1 -> no_overflow score2 metrics2 ->
  score1 <= score2 -> metrics_le metrics1 metrics2 ->
  tick_interval baseInterval score2 metrics2
  <= tick_interval baseInterval score1 metrics1
  /\ spawn_interval metrics2 <= spawn_interval metrics1.
Proof.
  intros H1 H2 Hscore (He & Hf & Hp & Hc & Hr).
  rewrite (spawn_interval_closed score1 metrics1 H1).
  rewrite (spawn_interval_closed score2 metrics2 H2).
  rewrite (tick_interval_closed score1 metrics1 H1).
  rewrite (tick_interval_closed score2 metrics2 H2).
  unfold closed_spawn_interval, closed_tick_interval. unfold_units.
  pose proof (Z.div_le_mono _ _ 3 ltac:(lia) Hp).
  pose proof (Z.div_le_mono _ _ 1500 ltac:(lia) Hc).
  pose proof (Z.div_le_mono _ _ 50 ltac:(lia) Hf).
  split; lia.
Qed.

Lemma intervals_monotone_witness :
  let quiet := mkMetrics 10 120 0 3 1500 2 0 in
  let busy := mkMetrics 40 900 7 30 45000 9 0 in
  tick_interval baseInterval 8 busy <= tick_interval baseInterval 5 quiet
  /\ spawn_interval busy <= spawn_interval quiet.
Proof.
  apply intervals_monotone.
  - unfold no_overflow. simpl. repeat split; vm_compute; discriminate.
  - unfold no_overflow. simpl. repeat split; vm_compute; discriminate.
  - lia.
  - unfold metrics_le. simpl. lia.
Defined.

End ControlMoreFacts.

(** ** The game *)

Module SnakeFacts.

Import Snake.

Lemma int_add_small a b :
  - 2 ^ 63 <= a + b <= GoInt.maxInt -> GoInt.add a b = a + b.
Proof.
  intros H. unfold GoInt.add. apply DurationFacts.wrap_small.
  unfold Duration.in_range, Duration.minDuration, Duration.maxDuration,
    GoInt.maxInt in *. lia.
Qed.

Lemma int_mul_small a b :
  - 2 ^ 63 <= a * b <= GoInt.maxInt -> GoInt.mul a b = a * b.
Proof.
  intros H. unfold GoInt.mul. apply DurationFacts.wrap_small.
  unfold Duration.in_range, Duration.minDuration, Duration.maxDuration,
    GoInt.maxInt in *. lia.
Qed.

(** *** The board *)

Lemma clamp_range lo hi v :
  lo <= hi ->
  lo <= (if hi <? (if v <? lo then lo else v) then hi
         else (if v <? lo then lo else v)) <= hi.
Proof.
  intros H. destruct (Z.ltb_spec v lo).
  - destruct (Z.ltb_spec hi lo); lia.
  - destruct (Z.ltb_spec hi v); lia.
Qed.

Lemma game_size_range termWidth termHeight :
  18 <= fst (game_size termWidth termHeight) <= 32
  /\ 8 <= snd (game_size termWidth termHeight) <= 16
  /\ (game_size termWidth termHeight = (20, 10)
      \/ (fst (game_size termWidth termHeight) + 4 <= termWidth
          /\ snd (game_size termWidth termHeight) + 4 <= termHeight)).
Proof.
  unfold game_size. cbv zeta.
  pose proof (clamp_range 18 32 (GoInt.div (GoInt.mul termWidth 3) 10)
                ltac:(lia)) as Hw.
  pose proof (clamp_range 8 16 (GoInt.div (GoInt.mul termHeight 3) 10)
                ltac:(lia)) as Hh.
  revert Hw Hh.
  generalize (if 32 <? (if GoInt.div (GoInt.mul termWidth 3) 10 <? 18
                        then 18 else GoInt.div (GoInt.mul termWidth 3) 10)
              then 32
              else (if GoInt.div (GoInt.mul termWidth 3) 10 <? 18
                    then 18 else GoInt.div (GoInt.mul termWidth 3) 10)).
  generalize (if 16 <? (if GoInt.div (GoInt.mul termHeight 3) 10 <? 8
                        then 8 else GoInt.div (GoInt.mul termHeight 3) 10)
              then 16
              else (if GoInt.div (GoInt.mul termHeight 3) 10 <? 8
                    then 8 else GoInt.div (GoInt.mul termHeight 3) 10)).
  intros h w Hw Hh.
  rewrite !int_add_small by (unfold GoInt.maxInt; lia).
  destruct (Z.ltb_spec termWidth (w + 4)); destruct (Z.ltb_spec termHeight (h + 4));
    simpl; repeat split; try lia; (left; reflexivity) || (right; lia).
Qed.

Lemma new_game_wf gameWidth gameHeight :
  18 <= gameWidth <= 32 -> 8 <= gameHeight <= 16 ->
  wf (new_game gameWidth gameHeight).
Proof.
  intros Hw Hh. unfold wf, new_game, GoInt.div. cbv zeta.
  cbn [snake width height direction].
  rewrite !Z.quot_div_nonneg by lia.
  assert (9 <= gameWidth / 2 <= 16)
    by (split; [apply Z.div_le_lower_bound|apply Z.div_le_upper_bound]; lia).
  assert (4 <= gameHeight / 2 <= 8)
    by (split; [apply Z.div_le_lower_bound|apply Z.div_le_upper_bound]; lia).
  assert (gameWidth / 2 < gameWidth) by (apply Z.div_lt_upper_bound; lia).
  assert (gameHeight / 2 < gameHeight) by (apply Z.div_lt_upper_bound; lia).
  rewrite !int_add_small by (unfold GoInt.maxInt; lia).
  split; [discriminate|]. split.
  - repeat constructor; simpl; lia.
  - unfold GoInt.maxInt, unit_step. cbn [X Y].
    split; [lia|]. split; [lia|]. left. lia.
Qed.


(** *** [spawnFood] *)

Lemma upto_in x n : In x (upto n) <-> 0 <= x < n.
Proof.
  unfold upto. rewrite in_map_iff. split.
  - intros (i & <- & Hi). apply in_seq in Hi. lia.
  - intros Hx. exists (Z.to_nat x). split; [lia|]. apply in_seq. lia.
Qed.

Lemma cells_in g p : In p (cells g) <-> in_grid g p.
Proof.
  unfold cells, in_grid. rewrite in_flat_map. split.
  - intros (y & Hy & Hp). apply in_map_iff in Hp as (x & <- & Hx).
    apply upto_in in Hy. apply upto_in in Hx. simpl. lia.
  - intros [Hx Hy]. exists (Y p). split; [now apply upto_in|].
    apply in_map_iff. exists (X p). split; [now destruct p|now apply upto_in].
Qed.

Lemma attempt_cell_in_grid now_x now_y attempt g :
  0 < width g -> 0 < height g ->
  0 <= now_x <= GoInt.maxInt - 2300 -> 0 <= now_y <= GoInt.maxInt ->
  0 <= attempt < 100 ->
  in_grid g (attempt_cell now_x now_y attempt g).
Proof.
  intros Hw Hh Hx Hy Ha. unfold attempt_cell, in_grid, GoInt.rem, GoInt.div.
  cbn [X Y]. unfold GoInt.maxInt in *.
  rewrite Z.quot_div_nonneg by lia.
  assert (0 <= now_y / 1000) by (apply Z.div_pos; lia).
  assert (now_y / 1000 <= 9223372036854776)
    by (apply Z.div_le_upper_bound; lia).
  rewrite !int_mul_small by (unfold GoInt.maxInt; lia).
  rewrite !int_add_small by (unfold GoInt.maxInt; lia).
  split; apply Z.rem_bound_pos; lia.
Qed.

Lemma try_attempts_spec clock attempts : forall g g1 placed,
  try_attempts attempts clock g = (g1, placed) ->
  g1 = set_food (food g1) g
  /\ (placed = true -> on_snake (food g1) (snake g) = false)
  /\ ((attempts = [] /\ food g1 = food g)
      \/ exists attempt,
           In attempt attempts
           /\ food g1 = attempt_cell (fst (clock attempt)) (snd (clock attempt))
                          (Z.of_nat attempt) g).
Proof.
  induction attempts as [|attempt rest IH]; intros g g1 placed Hrun.
  - simpl in Hrun. injection Hrun as <- <-.
    split; [now destruct g|]. split; [discriminate|]. left. split; reflexivity.
  - simpl in Hrun.
    set (cell := attempt_cell (fst (clock attempt)) (snd (clock attempt))
                   (Z.of_nat attempt) g) in *.
    cbn [food snake set_food] in Hrun.
    destruct (on_snake cell (snake g)) eqn:Hon; cbn [negb] in Hrun.
    + destruct (IH _ _ _ Hrun) as (Hg1 & Hplaced & Hfood).
      split; [rewrite Hg1; reflexivity|]. split; [exact Hplaced|].
      right. destruct Hfood as [[-> Hf]|(a & Ha & Hf)].
      * exists attempt. split; [now left|]. rewrite Hf. reflexivity.
      * exists a. split; [now right|]. rewrite Hf. reflexivity.
    + injection Hrun as <- <-.
      split; [reflexivity|]. split; [intros _; exact Hon|].
      right. exists attempt. split; [now left|reflexivity].
Qed.

Lemma spawnFood_spec (clock : nat -> Z * Z) (g : Game) :
  0 < width g -> 0 < height g ->
  exists g',
    spawnFood clock g = Some g'
    /\ g' = set_food (food g') g
    /\ (has_free_cell g -> on_snake (food g') (snake g) = false)
    /\ (clock_ok clock -> in_grid g (food g')).
Proof.
  intros Hw Hh. unfold spawnFood.
  destruct (Z.eqb_spec (width g) 0); [lia|].
  destruct (Z.eqb_spec (height g) 0); [lia|]. cbn [orb].
  destruct (try_attempts (seq 0 maxAttempts) clock g) as [g1 placed] eqn:Hrun.
  destruct (try_attempts_spec _ _ _ _ _ Hrun) as (Hg1 & Hplaced & Hfood).
  assert (Hcell : clock_ok clock -> in_grid g (food g1)).
  { intros Hclock. destruct Hfood as [[Hnil _]|(a & Ha & ->)];
      [discriminate|].
    apply in_seq in Ha. unfold maxAttempts in Ha.
    destruct (Hclock a). apply attempt_cell_in_grid; lia. }
  destruct placed.
  - exists g1. split; [reflexivity|]. split; [exact Hg1|].
    split; [intros _; now apply Hplaced|exact Hcell].
  - assert (Hsnake : snake g1 = snake g) by (rewrite Hg1; reflexivity).
    assert (Hcells : cells g1 = cells g) by (rewrite Hg1; reflexivity).
    rewrite Hsnake, Hcells.
    destruct (find (fun cell => negb (on_snake cell (snake g))) (cells g))
      as [cell|] eqn:Hfind.
    + apply find_some in Hfind as [Hin Hfree].
      exists (set_food cell g1). split; [reflexivity|].
      split; [rewrite Hg1; reflexivity|]. split.
      * intros _. cbn [food set_food]. now apply negb_true_iff.
      * intros _. cbn [food set_food]. now apply cells_in.
    + exists g1. split; [reflexivity|]. split; [exact Hg1|]. split.
      * intros (p & Hp & Hfree). exfalso.
        pose proof (find_none _ _ Hfind p (proj2 (cells_in g p) Hp)) as Hcov.
        cbv beta in Hcov. rewrite Hfree in Hcov. discriminate.
      * exact Hcell.
Qed.

(** X16: on a board of positive size [spawnFood] does not panic and
    changes nothing but the food; when some cell of the board is free of
    the snake the food ends on a cell that is not on the snake; and with
    clock readings as [UnixNano] gives them the food ends on the board. *)
Theorem spawnFood_places_food (clock : nat -> Z * Z) (g : Game) :
  0 < width g -> 0 < height g ->
  exists g',
    spawnFood clock g = Some g'
    /\ g' = set_food (food g') g
    /\ (has_free_cell g -> on_snake (food g') (snake g) = false)
    /\ (clock_ok clock -> in_grid g (food g')).
Proof. apply spawnFood_spec. Qed.

Lemma spawnFood_places_food_witness :
  exists g',
    spawnFood (fun attempt => (1700000000000000000, 1700000000000000000))
      (new_game 20 10) = Some g'
    /\ g' = set_food (food g') (new_game 20 10)
    /\ (has_free_cell (new_game 20 10) ->
        on_snake (food g') (snake (new_game 20 10)) = false)
    /\ (clock_ok (fun attempt => (1700000000000000000, 1700000000000000000)) ->
        in_grid (new_game 20 10) (food g')).
Proof.
  apply spawnFood_places_food; simpl; lia.
Defined.

(** *** [update] *)

Lemma unit_step_nonzero d :
  unit_step d -> (X d =? 0) && (Y d =? 0) = false.
Proof.
  unfold unit_step. intros H.
  destruct (Z.eqb_spec (X d) 0); destruct (Z.eqb_spec (Y d) 0);
    simpl; try reflexivity; lia.
Qed.

Lemma out_of_bounds_false g p :
  (X p <? 0) || (width g <=? X p) || (Y p <? 0) || (height g <=? Y p) = false
  <-> in_grid g p.
Proof.
  unfold in_grid.
  destruct (Z.ltb_spec (X p) 0); destruct (Z.leb_spec (width g) (X p));
    destruct (Z.ltb_spec (Y p) 0); destruct (Z.leb_spec (height g) (Y p));
    simpl; split; intros; try discriminate; try reflexivity; lia.
Qed.

Lemma Forall_removelast {A} (P : A -> Prop) (l : list A) :
  Forall P l -> Forall P (removelast l).
Proof.
  induction 1 as [|x l Hx Hl IH]; [constructor|].
  simpl. destruct l; [constructor|]. constructor; assumption.
Qed.

Lemma length_drop_last (x : Position) l :
  length (drop_last (x :: l)) = length l.
Proof.
  unfold drop_last. revert x. induction l as [|y l IH]; intros x; [reflexivity|].
  assert (Hstep : removelast (x :: y :: l) = x :: removelast (y :: l))
    by reflexivity.
  rewrite Hstep. cbn [length]. f_equal. apply IH.
Qed.

Lemma length_drop_last_nonempty (l : list Position) :
  l <> [] -> S (length (drop_last l)) = length l.
Proof.
  destruct l as [|x l]; [congruence|]. intros _.
  now rewrite length_drop_last.
Qed.

Lemma in_grid_same_board g g' p :
  width g' = width g -> height g' = height g -> in_grid g p -> in_grid g' p.
Proof. unfold in_grid. intros -> ->. tauto. Qed.

(** The head moves by one step and so never stays where it was. *)
Lemma next_head_step g head tl :
  wf g -> snake g = head :: tl ->
  GoInt.add (X head) (X (direction g)) = X head + X (direction g)
  /\ GoInt.add (Y head) (Y (direction g)) = Y head + Y (direction g)
  /\ pos_eqb (mkPos (X head + X (direction g)) (Y head + Y (direction g))) head
     = false.
Proof.
  intros (Hne & Hall & Hw & Hh & Hdir) Hs. rewrite Hs in Hall.
  inversion Hall as [|? ? Hhead _]; subst. unfold in_grid in Hhead.
  unfold unit_step in Hdir. unfold GoInt.maxInt in *.
  split; [apply int_add_small; unfold GoInt.maxInt; lia|].
  split; [apply int_add_small; unfold GoInt.maxInt; lia|].
  unfold pos_eqb. cbn [X Y].
  destruct (Z.eqb_spec (X head + X (direction g)) (X head));
    destruct (Z.eqb_spec (Y head + Y (direction g)) (Y head));
    simpl; try reflexivity; lia.
Qed.

(** What [update] returns on a running, well-formed game, branch by
    branch. *)
Lemma update_running clock g head tl :
  wf g -> gameOver g = false -> snake g = head :: tl ->
  let newHead := mkPos (X head + X (direction g)) (Y head + Y (direction g)) in
  let over := mkGame (snake g) (direction g) (food g) (score g) true
                     (width g) (height g) in
  (~ in_grid g newHead -> update clock g = Some (over, true))
  /\ (in_grid g newHead -> on_snake newHead (drop_last (snake g)) = true ->
      update clock g = Some (over, true))
  /\ (in_grid g newHead -> on_snake newHead (drop_last (snake g)) = false ->
      pos_eqb newHead (food g) = false ->
      update clock g
      = Some (mkGame (newHead :: drop_last (snake g)) (direction g) (food g)
                     (score g) false (width g) (height g), true))
  /\ (in_grid g newHead -> on_snake newHead (drop_last (snake g)) = false ->
      pos_eqb newHead (food g) = true ->
      exists newFood tail,
        last (snake g) = Some tail
        /\ update clock g
           = Some (mkGame (newHead :: snake g ++ [tail; tail]) (direction g)
                          newFood (GoInt.add (score g) 1) false
                          (width g) (height g), true)).
Proof.
  intros Hwf Hover Hs newHead over.
  destruct (next_head_step g head tl Hwf Hs) as (Hx & Hy & Hmoved).
  destruct Hwf as (Hne & Hall & Hw & Hh & Hdir).
  assert (Hupd : update clock g
    = if (X newHead <? 0) || (width g <=? X newHead)
         || (Y newHead <? 0) || (height g <=? Y newHead)
      then Some (over, true)
      else if on_snake newHead (drop_last (snake g))
      then Some (over, true)
      else if pos_eqb newHead (food g) then
        match spawnFood clock
                (mkGame (snake g) (direction g) (food g)
                        (GoInt.add (score g) 1) (gameOver g)
                        (width g) (height g)) with
        | None => None
        | Some g1 =>
            match grow_tail (newHead :: snake g1) with
            | None => None
            | Some body =>
                Some (mkGame body (direction g1) (food g1) (score g1)
                             (gameOver g1) (width g1) (height g1),
                      negb (length (snake g) =? length body)%nat
                      || negb (pos_eqb newHead head)
                      || negb (pos_eqb (food g) (food g1)))
            end
        end
      else
        Some (mkGame (newHead :: drop_last (snake g)) (direction g) (food g)
                     (score g) (gameOver g) (width g) (height g),
              negb (length (snake g)
                    =? length (newHead :: drop_last (snake g)))%nat
              || negb (pos_eqb newHead head)
              || negb (pos_eqb (food g) (food g)))).
  { unfold update. rewrite Hover, (unit_step_nonzero _ Hdir).
    rewrite Hs at 1. cbv zeta. rewrite Hx, Hy. reflexivity. }
  change (pos_eqb newHead head = false) in Hmoved.
  rewrite Hupd, Hmoved. clear Hupd.
  pose proof (out_of_bounds_false g newHead) as Hoob.
  split; [|split; [|split]].
  - intros Hout.
    destruct ((X newHead <? 0) || (width g <=? X newHead)
              || (Y newHead <? 0) || (height g <=? Y newHead));
      [reflexivity|]. exfalso. apply Hout. now apply Hoob.
  - intros Hin Hhit. rewrite (proj2 Hoob Hin), Hhit. reflexivity.
  - intros Hin Hfree Hfood. rewrite (proj2 Hoob Hin), Hfree, Hfood, Hover.
    f_equal. f_equal. cbn [negb]. now rewrite orb_true_r.
  - intros Hin Hfree Hfood. rewrite (proj2 Hoob Hin), Hfree, Hfood.
    destruct (spawnFood_spec clock
                (mkGame (snake g) (direction g) (food g)
                        (GoInt.add (score g) 1) (gameOver g)
                        (width g) (height g)))
      as (g1 & -> & Hg1 & _); [simpl; lia..|].
    rewrite Hg1. cbn [snake direction food score gameOver width height set_food].
    destruct (last (snake g)) as [tail|] eqn:Hlast;
      [|apply last_None in Hlast; contradiction].
    exists (food g1), tail. split; [reflexivity|].
    unfold grow_tail. rewrite Hs at 1. rewrite last_cons_cons, <- Hs, Hlast.
    rewrite Hover. f_equal. f_equal.
    cbn [negb]. now rewrite orb_true_r.
Qed.

Lemma in_grid_dec g p : in_grid g p \/ ~ in_grid g p.
Proof. unfold in_grid. lia. Qed.

Lemma wf_rebuild g body dir newFood newScore over :
  wf g -> body <> [] -> Forall (in_grid g) body -> unit_step dir ->
  wf (mkGame body dir newFood newScore over (width g) (height g)).
Proof.
  intros (_ & _ & Hw & Hh & _) Hne Hall Hdir.
  unfold wf. cbn [snake width height direction].
  split; [exact Hne|]. split; [exact Hall|]. split; [exact Hw|].
  split; [exact Hh|exact Hdir].
Qed.

Lemma update_total clock g :
  wf g ->
  exists g' changed,
    update clock g = Some (g', changed)
    /\ wf g'
    /\ changed = negb (gameOver g)
    /\ width g' = width g /\ height g' = height g
    /\ direction g' = direction g
    /\ (length (snake g) <= length (snake g'))%nat
    /\ (gameOver g = true -> g' = g).
Proof.
  intros Hwf. destruct (gameOver g) eqn:Hover.
  - exists g, false. unfold update. rewrite Hover.
    split; [reflexivity|]. split; [exact Hwf|].
    split; [reflexivity|]. split; [reflexivity|]. split; [reflexivity|].
    split; [reflexivity|]. split; [apply Nat.le_refl|reflexivity].
  - destruct (snake g) as [|head tl] eqn:Hs; [destruct Hwf as [Hne _]; congruence|].
    destruct (update_running clock g head tl Hwf Hover Hs)
      as (Hout & Hhit & Hmove & Heat).
    cbv zeta in *. rewrite <- Hs in *.
    set (newHead := mkPos (X head + X (direction g))
                          (Y head + Y (direction g))) in *.
    pose proof Hwf as (Hne & Hall & Hw & Hh & Hdir).
    assert (Hoverwf : wf (mkGame (snake g) (direction g) (food g) (score g)
                                 true (width g) (height g)))
      by (apply wf_rebuild; assumption).
    destruct (in_grid_dec g newHead) as [Hin|Hnot].
    + destruct (on_snake newHead (drop_last (snake g))) eqn:Hon.
      * eexists _, true. split; [now apply Hhit|]. split; [exact Hoverwf|].
        cbn [snake width height direction].
        split; [reflexivity|]. split; [reflexivity|]. split; [reflexivity|].
        split; [reflexivity|]. split; [apply Nat.le_refl|discriminate].
      * destruct (pos_eqb newHead (food g)) eqn:Hfood.
        -- destruct (Heat Hin eq_refl eq_refl) as (newFood & tail & Hlast & Hupd).
           eexists _, true. split; [exact Hupd|]. split.
           { apply wf_rebuild; try assumption; [discriminate|].
             constructor; [exact Hin|].
             apply Forall_app. split; [exact Hall|].
             apply last_Some in Hlast as [l' Hl'].
             assert (Htail : in_grid g tail).
             { rewrite Hl' in Hall. apply Forall_app in Hall as [_ Ht].
               now inversion Ht. }
             constructor; [exact Htail|]. constructor; [exact Htail|constructor]. }
           cbn [snake width height direction].
           split; [reflexivity|]. split; [reflexivity|]. split; [reflexivity|].
           split; [reflexivity|]. split; [|discriminate].
           rewrite length_cons, length_app. lia.
        -- eexists _, true. split; [now apply Hmove|]. split.
           { apply wf_rebuild; try assumption; [discriminate|].
             constructor; [exact Hin|]. now apply Forall_removelast. }
           cbn [snake width height direction].
           split; [reflexivity|]. split; [reflexivity|]. split; [reflexivity|].
           split; [reflexivity|]. split; [|discriminate].
           rewrite length_cons, length_drop_last_nonempty by assumption. lia.
    + eexists _, true. split; [now apply Hout|]. split; [exact Hoverwf|].
      cbn [snake width height direction].
      split; [reflexivity|]. split; [reflexivity|]. split; [reflexivity|].
      split; [reflexivity|]. split; [apply Nat.le_refl|discriminate].
Qed.

(** X17: on a well-formed game (a non-empty snake on a board of positive
    size, moving by a unit step) [update] never panics, keeps the game well
    formed, so the snake stays on the board, keeps the board and the
    direction, never shortens the snake, reports a change exactly when the
    game was not over, and leaves a game that is over untouched. *)
Theorem update_keeps_game_well_formed (clock : nat -> Z * Z) (g : Game) :
  wf g ->
  exists g' changed,
    update clock g = Some (g', changed)
    /\ wf g'
    /\ changed = negb (gameOver g)
    /\ width g' = width g /\ height g' = height g
    /\ direction g' = direction g
    /\ (length (snake g) <= length (snake g'))%nat
    /\ (gameOver g = true -> g' = g).
Proof. apply update_total. Qed.

Lemma update_keeps_game_well_formed_witness :
  exists g' changed,
    update (fun _ => (1700000000000000000, 1700000000000000000))
      (new_game 20 10) = Some (g', changed)
    /\ wf g'
    /\ changed = negb (gameOver (new_game 20 10))
    /\ width g' = width (new_game 20 10)
    /\ height g' = height (new_game 20 10)
    /\ direction g' = direction (new_game 20 10)
    /\ (length (snake (new_game 20 10)) <= length (snake g'))%nat
    /\ (gameOver (new_game 20 10) = true -> g' = new_game 20 10).
Proof.
  apply update_keeps_game_well_formed. apply new_game_wf; lia.
Defined.

(** X18: on a running well-formed game, [update] ends the game exactly
    when the next head cell is off the board or on a segment other than
    the last one, and then changes nothing else; otherwise, when the next
    head cell is not the food, the snake is the new head followed by the
    old snake without its last segment, with score and food unchanged; and
    when it is the food, the snake is the new head, the old snake and two
    more copies of its last segment (three segments longer) and the score
    goes up by one. *)
Theorem update_outcome
    (clock : nat -> Z * Z) (g g' : Game) (newHead : Position) (changed : bool) :
  wf g -> gameOver g = false ->
  next_head g = Some newHead ->
  update clock g = Some (g', changed) ->
  (gameOver g' = true <->
     ~ in_grid g newHead \/ on_snake newHead (drop_last (snake g)) = true)
  /\ (gameOver g' = true ->
      snake g' = snake g /\ score g' = score g /\ food g' = food g)
  /\ (gameOver g' = false -> pos_eqb newHead (food g) = false ->
      snake g' = newHead :: drop_last (snake g)
      /\ score g' = score g /\ food g' = food g)
  /\ (gameOver g' = false -> pos_eqb newHead (food g) = true ->
      exists tail,
        last (snake g) = Some tail
        /\ snake g' = newHead :: snake g ++ [tail; tail]
        /\ length (snake g') = (length (snake g) + 3)%nat
        /\ score g' = GoInt.add (score g) 1).
Proof.
  intros Hwf Hover Hnext Hupd.
  destruct (snake g) as [|head tl] eqn:Hs;
    [unfold next_head in Hnext; rewrite Hs in Hnext; discriminate|].
  destruct (next_head_step g head tl Hwf Hs) as (Hx & Hy & _).
  unfold next_head in Hnext. rewrite Hs, Hx, Hy in Hnext.
  injection Hnext as <-.
  destruct (update_running clock g head tl Hwf Hover Hs)
    as (Hout & Hhit & Hmove & Heat).
  cbv zeta in *. rewrite <- Hs in *.
  set (newHead := mkPos (X head + X (direction g))
                        (Y head + Y (direction g))) in *.
  destruct (in_grid_dec g newHead) as [Hin|Hnot].
  - destruct (on_snake newHead (drop_last (snake g))) eqn:Hon.
    + rewrite (Hhit Hin eq_refl) in Hupd. injection Hupd as <- <-.
      cbn [gameOver snake score food].
      repeat split; try discriminate; try reflexivity; try tauto.
    + destruct (pos_eqb newHead (food g)) eqn:Hfood.
      * destruct (Heat Hin eq_refl eq_refl) as (newFood & tail & Hlast & Hupd').
        rewrite Hupd' in Hupd. injection Hupd as <- <-.
        cbn [gameOver snake score food].
        split; [split; [discriminate|intros [?|?]; [contradiction|discriminate]]|].
        split; [discriminate|]. split; [discriminate|].
        intros _ _. exists tail. repeat split; try assumption.
        rewrite length_cons, length_app. simpl. lia.
      * rewrite (Hmove Hin eq_refl eq_refl) in Hupd. injection Hupd as <- <-.
        cbn [gameOver snake score food].
        split; [split; [discriminate|intros [?|?]; [contradiction|discriminate]]|].
        split; [discriminate|]. split; [|discriminate].
        intros _ _. repeat split.
  - rewrite (Hout Hnot) in Hupd. injection Hupd as <- <-.
    cbn [gameOver snake score food].
    repeat split; try discriminate; try reflexivity; try tauto.
Qed.

Lemma update_outcome_witness :
  let clock := fun _ : nat => (1700000000000000000, 1700000000000000000) in
  let g := mkGame [mkPos 3 2; mkPos 2 2; mkPos 1 2] (mkPos 1 0) (mkPos 4 2)
                  0 false 20 10 in
  let g' := mkGame [mkPos 4 2; mkPos 3 2; mkPos 2 2; mkPos 1 2;
                    mkPos 1 2; mkPos 1 2]
                   (mkPos 1 0) (mkPos 0 0) 1 false 20 10 in
  (gameOver g' = true <->
     ~ in_grid g (mkPos 4 2)
     \/ on_snake (mkPos 4 2) (drop_last (snake g)) = true)
  /\ (gameOver g' = true ->
      snake g' = snake g /\ score g' = score g /\ food g' = food g)
  /\ (gameOver g' = false -> pos_eqb (mkPos 4 2) (food g) = false ->
      snake g' = mkPos 4 2 :: drop_last (snake g)
      /\ score g' = score g /\ food g' = food g)
  /\ (gameOver g' = false -> pos_eqb (mkPos 4 2) (food g) = true ->
      exists tail,
        last (snake g) = Some tail
        /\ snake g' = mkPos 4 2 :: snake g ++ [tail; tail]
        /\ length (snake g') = (length (snake g) + 3)%nat
        /\ score g' = GoInt.add (score g) 1).
Proof.
  cbv zeta.
  apply (update_outcome
           (fun _ : nat => (1700000000000000000, 1700000000000000000))
           _ _ (mkPos 4 2) true).
  - unfold wf, in_grid, unit_step, GoInt.maxInt. simpl.
    split; [discriminate|]. split; [repeat constructor; simpl; lia|].
    split; [lia|]. split; [lia|]. left. lia.
  - reflexivity.
  - vm_compute. reflexivity.
  - vm_compute. reflexivity.
Defined.

(** *** Input *)

Lemma handle_input_cases input g :
  (handle_input input g = (g, false))
  \/ (handle_input input g
      = (mkGame (snake g) (direction g) (food g) (score g) true
                (width g) (height g), false))
  \/ (Y (direction g) = 0
      /\ (handle_input input g = (set_direction (mkPos 0 (-1)) g, true)
          \/ handle_input input g = (set_direction (mkPos 0 1) g, true)))
  \/ (X (direction g) = 0
      /\ (handle_input input g = (set_direction (mkPos (-1) 0) g, true)
          \/ handle_input input g = (set_direction (mkPos 1 0) g, true))).
Proof.
  unfold handle_input.
  destruct (one_of input ["w"; "W"; "up"]%string).
  { destruct (Z.eqb_spec (Y (direction g)) 0); [|now left].
    right. right. left. split; [assumption|]. now left. }
  destruct (one_of input ["s"; "S"; "down"]%string).
  { destruct (Z.eqb_spec (Y (direction g)) 0); [|now left].
    right. right. left. split; [assumption|]. now right. }
  destruct (one_of input ["a"; "A"; "left"]%string).
  { destruct (Z.eqb_spec (X (direction g)) 0); [|now left].
    right. right. right. split; [assumption|]. now left. }
  destruct (one_of input ["d"; "D"; "right"]%string).
  { destruct (Z.eqb_spec (X (direction g)) 0); [|now left].
    right. right. right. split; [assumption|]. now right. }
  destruct (one_of input ["q"; "Q"]%string); [right; now left|now left].
Qed.

Lemma handle_input_spec input g :
  unit_step (direction g) ->
  unit_step (direction (fst (handle_input input g)))
  /\ ~ (X (direction (fst (handle_input input g))) = - X (direction g)
        /\ Y (direction (fst (handle_input input g))) = - Y (direction g))
  /\ (snd (handle_input input g) = true <->
      direction (fst (handle_input input g)) <> direction g)
  /\ snake (fst (handle_input input g)) = snake g
  /\ food (fst (handle_input input g)) = food g
  /\ score (fst (handle_input input g)) = score g
  /\ width (fst (handle_input input g)) = width g
  /\ height (fst (handle_input input g)) = height g
  /\ (gameOver g = true -> gameOver (fst (handle_input input g)) = true).
Proof.
  intros Hdir. unfold unit_step in Hdir.
  destruct (handle_input_cases input g)
    as [-> | [-> | [[Hy [-> | ->]] | [Hx [-> | ->]]]]];
    cbn [fst snd set_direction snake direction food score width height
         gameOver X Y];
    (split; [unfold unit_step; cbn [X Y]; lia|]);
    (split; [lia|]);
    (split; [split; [try discriminate; intros _ Heq; rewrite <- Heq in *;
                     cbn [X Y] in *; lia
                    |intros Hne; try reflexivity; now contradiction Hne]|]);
    repeat (split; [reflexivity|]); try reflexivity; try tauto.
Qed.

(** X19: a token from the input channel leaves the direction a unit step
    and never turns it into its opposite; it reports a direction change
    exactly when the direction is different afterwards; it never touches
    the snake, the food, the score or the board, and never revives a game
    that is over. *)
Theorem handle_input_steers (input : string) (g : Game) :
  unit_step (direction g) ->
  unit_step (direction (fst (handle_input input g)))
  /\ ~ (X (direction (fst (handle_input input g))) = - X (direction g)
        /\ Y (direction (fst (handle_input input g))) = - Y (direction g))
  /\ (snd (handle_input input g) = true <->
      direction (fst (handle_input input g)) <> direction g)
  /\ snake (fst (handle_input input g)) = snake g
  /\ food (fst (handle_input input g)) = food g
  /\ score (fst (handle_input input g)) = score g
  /\ width (fst (handle_input input g)) = width g
  /\ height (fst (handle_input input g)) = height g
  /\ (gameOver g = true -> gameOver (fst (handle_input input g)) = true).
Proof. apply handle_input_spec. Qed.

Lemma handle_input_steers_witness :
  let g := new_game 20 10 in
  unit_step (direction (fst (handle_input "up" g)))
  /\ ~ (X (direction (fst (handle_input "up" g))) = - X (direction g)
        /\ Y (direction (fst (handle_input "up" g))) = - Y (direction g))
  /\ (snd (handle_input "up" g) = true <->
      direction (fst (handle_input "up" g)) <> direction g)
  /\ snake (fst (handle_input "up" g)) = snake g
  /\ food (fst (handle_input "up" g)) = food g
  /\ score (fst (handle_input "up" g)) = score g
  /\ width (fst (handle_input "up" g)) = width g
  /\ height (fst (handle_input "up" g)) = height g
  /\ (gameOver g = true -> gameOver (fst (handle_input "up" g)) = true).
Proof.
  apply (handle_input_steers "up" (new_game 20 10)).
  left. split; reflexivity.
Defined.

(** *** Whole games *)

Lemma step_total e g :
  wf g ->
  exists g',
    step e g = Some g' /\ wf g'
    /\ width g' = width g /\ height g' = height g
    /\ (length (snake g) <= length (snake g'))%nat
    /\ (gameOver g = true -> gameOver g' = true).
Proof.
  intros Hwf. destruct e as [clock|clock|input]; cbn [step].
  - destruct (update_total clock g Hwf)
      as (g' & changed & -> & Hwf' & _ & Hw & Hh & _ & Hlen & Hstay).
    exists g'. cbn [option_map fst].
    repeat (split; [first [reflexivity|assumption]|]).
    intros Hover. now rewrite (Hstay Hover).
  - pose proof Hwf as (Hne & Hall & Hw & Hh & Hdir).
    destruct (spawnFood_spec clock g ltac:(lia) ltac:(lia))
      as (g' & -> & Hg' & _).
    exists g'. split; [reflexivity|]. rewrite Hg'.
    cbn [set_food snake width height gameOver].
    split; [now apply wf_rebuild|].
    split; [reflexivity|]. split; [reflexivity|].
    split; [apply Nat.le_refl|tauto].
  - pose proof Hwf as (Hne & Hall & Hw & Hh & Hdir).
    destruct (handle_input_spec input g Hdir)
      as (Hunit & _ & _ & Hsnake & _ & _ & Hw' & Hh' & Hstay).
    exists (fst (handle_input input g)). split; [reflexivity|].
    split.
    { unfold wf. rewrite Hsnake, Hw', Hh'.
      split; [exact Hne|]. split.
      - eapply Forall_impl; [exact Hall|]. intros p Hp.
        eapply in_grid_same_board; eassumption.
      - split; [exact Hw|]. split; [exact Hh|exact Hunit]. }
    split; [exact Hw'|]. split; [exact Hh'|].
    split; [rewrite Hsnake; apply Nat.le_refl|exact Hstay].
Qed.

Lemma play_total es : forall g,
  wf g ->
  exists g',
    play es g = Some g' /\ wf g'
    /\ width g' = width g /\ height g' = height g
    /\ (length (snake g) <= length (snake g'))%nat
    /\ (gameOver g = true -> gameOver g' = true).
Proof.
  induction es as [|e rest IH]; intros g Hwf.
  - exists g. split; [reflexivity|]. split; [exact Hwf|].
    split; [reflexivity|]. split; [reflexivity|].
    split; [apply Nat.le_refl|tauto].
  - destruct (step_total e g Hwf) as (g1 & Hstep & Hwf1 & Hw1 & Hh1 & Hlen1 & Ho1).
    destruct (IH g1 Hwf1) as (g2 & Hplay & Hwf2 & Hw2 & Hh2 & Hlen2 & Ho2).
    exists g2. cbn [play]. rewrite Hstep.
    split; [exact Hplay|]. split; [exact Hwf2|].
    split; [congruence|]. split; [congruence|].
    split; [lia|tauto].
Qed.

(** X20: whatever the terminal size, and whatever ticks, timed spawns and
    input tokens follow in whatever order and with whatever clock
    readings, the game started by [main] never panics: the snake always
    exists and lies on the board, the board keeps its size, the snake
    never gets shorter than its three initial segments, and the direction
    stays a unit step. *)
Theorem game_never_panics (termWidth termHeight : Z) (es : list event) :
  let '(gameWidth, gameHeight) := game_size termWidth termHeight in
  exists g',
    play es (new_game gameWidth gameHeight) = Some g'
    /\ wf g'
    /\ width g' = gameWidth /\ height g' = gameHeight
    /\ (3 <= length (snake g'))%nat.
Proof.
  pose proof (game_size_range termWidth termHeight) as (Hw & Hh & _).
  destruct (game_size termWidth termHeight) as [w h]. cbn [fst snd] in *.
  destruct (play_total es (new_game w h) (new_game_wf w h Hw Hh))
    as (g' & Hplay & Hwf & Hw' & Hh' & Hlen & _).
  exists g'. split; [exact Hplay|]. split; [exact Hwf|].
  split; [exact Hw'|]. split; [exact Hh'|exact Hlen].
Qed.

(** X21: once the game is over it stays over, and ticks no longer change
    it: after any sequence of events on a finished well-formed game the
    game is still over, and a sequence of ticks alone leaves it exactly as
    it was. *)
Theorem game_over_is_final (es : list event) (g : Game) :
  wf g -> gameOver g = true ->
  (exists g', play es g = Some g' /\ gameOver g' = true)
  /\ forall clocks, play (map Tick clocks) g = Some g.
Proof.
  intros Hwf Hover. split.
  - destruct (play_total es g Hwf) as (g' & Hplay & _ & _ & _ & _ & Hstay).
    exists g'. split; [exact Hplay|now apply Hstay].
  - intros clocks. induction clocks as [|clock rest IH]; [reflexivity|].
    cbn [map play step]. unfold update. rewrite Hover. cbn [option_map fst].
    exact IH.
Qed.

Lemma game_over_is_final_witness :
  let g := mkGame [mkPos 3 2; mkPos 2 2; mkPos 1 2] (mkPos 1 0) (mkPos 4 2)
                  7 true 20 10 in
  let es := [Key "up"; Tick (fun _ => (5, 5)); TimedSpawn (fun _ => (9, 9))] in
  (exists g', play es g = Some g' /\ gameOver g' = true)
  /\ forall clocks, play (map Tick clocks) g = Some g.
Proof.
  cbv zeta. apply game_over_is_final.
  - unfold wf, in_grid, unit_step, GoInt.maxInt. simpl.
    split; [discriminate|]. split; [repeat constructor; simpl; lia|].
    split; [lia|]. split; [lia|]. left. lia.
  - reflexivity.
Defined.

End SnakeFacts.

(** ** Keyboard input *)

Module InputFacts.

Import Input.

Lemma string_of_byte_upper c upper :
  65 <= upper <= 90 -> string_of_byte c = string_of_byte upper -> c = upper.
Proof.
  intros Hu. unfold string_of_byte.
  destruct (Z.ltb_spec upper 128); [|lia].
  destruct (Z.ltb_spec c 128); [|discriminate].
  intros [= Heq].
  apply (f_equal Ascii.N_of_ascii) in Heq.
  rewrite !Ascii.N_ascii_embedding in Heq by lia. lia.
Qed.

Lemma key_token_not_upper char upper :
  65 <= upper <= 90 -> key_token char <> string_of_byte upper.
Proof.
  intros Hu Heq. unfold key_token in Heq.
  destruct (Z.leb_spec 65 char); destruct (Z.leb_spec char 90);
    cbn [andb] in Heq; apply string_of_byte_upper in Heq; lia.
Qed.

Lemma arrow_not_upper dir direction upper :
  65 <= upper <= 90 -> arrow dir = Some direction ->
  direction <> string_of_byte upper.
Proof.
  intros Hu Harrow Heq. unfold string_of_byte in Heq.
  destruct (Z.ltb_spec upper 128); [|lia].
  unfold arrow in Harrow.
  repeat match type of Harrow with
         | (if ?b then _ else _) = _ => destruct b
         end;
    try discriminate; injection Harrow as <-; discriminate.
Qed.

Lemma decode_never_upper_bounded (n : nat) : forall bytes,
  (length bytes <= n)%nat -> Forall never_upper (decode bytes).
Proof.
  induction n as [|n IH]; intros bytes Hlen.
  - destruct bytes; [constructor|simpl in Hlen; lia].
  - destruct bytes as [|char rest]; [constructor|].
    cbn [length] in Hlen.
    assert (Hkey : Forall never_upper (key_token char :: decode rest)).
    { constructor; [intros upper Hu; now apply key_token_not_upper|].
      apply IH. lia. }
    cbn [decode]. destruct (char =? 27); [|exact Hkey].
    destruct rest as [|peeked0 [|dir rest2]]; try exact Hkey.
    destruct (peeked0 =? 91); [|exact Hkey].
    cbn [length] in Hlen.
    destruct (arrow dir) as [direction|] eqn:Harrow.
    + constructor; [intros upper Hu; now apply (arrow_not_upper dir)|].
      apply IH. lia.
    + apply IH. lia.
Qed.

(** X22: whatever bytes arrive, no token that [readInput] offers is the
    one-character string of an upper-case letter: letters are lowered
    before they are sent, so the loop never receives "W", "S", "A", "D" or
    "Q". *)
Theorem decode_never_offers_upper_case (bytes : list Z) :
  Forall never_upper (decode bytes)
  /\ Forall (fun token => ~ In token ["W"; "S"; "A"; "D"; "Q"]%string)
            (decode bytes).
Proof.
  pose proof (decode_never_upper_bounded (length bytes) bytes (Nat.le_refl _))
    as Hall.
  split; [exact Hall|].
  eapply Forall_impl; [exact Hall|].
  intros token Hnever Hin. cbn [In] in Hin.
  destruct Hin as [<-|[<-|[<-|[<-|[<-|[]]]]]].
  - apply (Hnever 87); [lia|reflexivity].
  - apply (Hnever 83); [lia|reflexivity].
  - apply (Hnever 65); [lia|reflexivity].
  - apply (Hnever 68); [lia|reflexivity].
  - apply (Hnever 81); [lia|reflexivity].
Qed.

Lemma decode_key char rest :
  char <> 27 -> decode (char :: rest) = key_token char :: decode rest.
Proof.
  intros Hne. cbn [decode]. destruct (Z.eqb_spec char 27); [contradiction|].
  reflexivity.
Qed.

(** X23: a letter key steers the same with and without shift, and an
    arrow key steers like its letter: for every game and every rest of the
    input, the bytes ESC [ A, the byte w and the byte W lead to the same
    game, and likewise for down/s/S, left/a/A and right/d/D; in general an
    upper-case letter byte is decoded like its lower-case byte. *)
Theorem keys_steer_alike (rest : list Z) (g : Snake.Game) :
  (forall upper, 65 <= upper <= 90 ->
     decode (upper :: rest) = decode (upper + 32 :: rest))
  /\ steer (decode (27 :: 91 :: 65 :: rest)) g = steer (decode (119 :: rest)) g
  /\ steer (decode (27 :: 91 :: 66 :: rest)) g = steer (decode (115 :: rest)) g
  /\ steer (decode (27 :: 91 :: 68 :: rest)) g = steer (decode (97 :: rest)) g
  /\ steer (decode (27 :: 91 :: 67 :: rest)) g = steer (decode (100 :: rest)) g.
Proof.
  split.
  - intros upper Hu. rewrite !decode_key by lia. f_equal.
    unfold key_token.
    destruct (Z.leb_spec 65 upper); destruct (Z.leb_spec upper 90); try lia.
    destruct (Z.leb_spec (upper + 32) 90); [lia|].
    now rewrite andb_false_r.
  - repeat split; reflexivity.
Qed.














End InputFacts.

(** ** Loading the tracer *)

Module LoadFacts.

Import Load.

Section LoadEBPF.

Variable CollectionSpec : Type.
Variable LoadCollectionSpec : string -> option CollectionSpec.
Variable NewCollection : CollectionSpec -> option (gmap string Z).
Variable put_ok : string -> bool.

Local Abbreviation load_first := (load_first CollectionSpec LoadCollectionSpec).
Local Abbreviation init_maps := (init_maps put_ok).
Local Abbreviation loadEBPF :=
  (loadEBPF CollectionSpec LoadCollectionSpec NewCollection put_ok).

Lemma load_first_none paths :
  load_first paths = None <->
  Forall (fun path => LoadCollectionSpec path = None) paths.
Proof.
  induction paths as [|path rest IH]; cbn [Load.load_first].
  - split; [constructor|reflexivity].
  - destruct (LoadCollectionSpec path) eqn:Hp.
    + split; [discriminate|]. intros H. inversion H; congruence.
    + rewrite IH. split.
      * intros H. now constructor.
      * intros H. now inversion H.
Qed.

Lemma load_first_some paths spec :
  load_first paths = Some spec ->
  exists before path after,
    paths = before ++ path :: after
    /\ Forall (fun p => LoadCollectionSpec p = None) before
    /\ LoadCollectionSpec path = Some spec.
Proof.
  induction paths as [|path rest IH]; cbn [Load.load_first]; [discriminate|].
  destruct (LoadCollectionSpec path) as [spec'|] eqn:Hp.
  - intros [= <-]. exists [], path, rest.
    split; [reflexivity|]. split; [constructor|exact Hp].
  - intros Hrest. destruct (IH Hrest) as (before & p & after & -> & Hb & Hl).
    exists (path :: before), p, after.
    split; [reflexivity|]. split; [now constructor|exact Hl].
Qed.

Lemma init_maps_loaded names : forall maps maps',
  init_maps names maps = Loaded maps' ->
  (forall name, name ∈ names -> is_Some (maps !! name) ->
     maps' !! name = Some 0 /\ put_ok name = true)
  /\ (forall name, name ∉ names -> maps' !! name = maps !! name)
  /\ (forall name, maps' !! name = None <-> maps !! name = None).
Proof.
  induction names as [|mapName rest IH]; intros maps maps' Hinit.
  - cbn [Load.init_maps] in Hinit. injection Hinit as <-.
    split; [intros name Hin; now apply not_elem_of_nil in Hin|].
    split; [reflexivity|reflexivity].
  - cbn [Load.init_maps] in Hinit.
    destruct (maps !! mapName) as [old|] eqn:Hm.
    + destruct (put_ok mapName) eqn:Hput; [|discriminate].
      destruct (IH _ _ Hinit) as (Hzero & Hother & Hnone).
      split; [|split].
      * intros name Hin Hsome.
        destruct (decide (name ∈ rest)) as [Hrest|Hrest].
        -- apply Hzero; [exact Hrest|].
           destruct (decide (mapName = name)) as [->|Hne].
           ++ rewrite lookup_insert_eq. eauto.
           ++ now rewrite lookup_insert_ne.
        -- apply elem_of_cons in Hin as [->|Hin]; [|contradiction].
           split; [|exact Hput].
           rewrite (Hother mapName Hrest). apply lookup_insert_eq.
      * intros name Hnot. apply not_elem_of_cons in Hnot as [Hne Hrest].
        rewrite (Hother name Hrest). now apply lookup_insert_ne.
      * intros name. rewrite Hnone.
        destruct (decide (mapName = name)) as [->|Hne].
        -- rewrite lookup_insert_eq, Hm. split; discriminate.
        -- now rewrite lookup_insert_ne.
    + destruct (IH _ _ Hinit) as (Hzero & Hother & Hnone).
      split; [|split].
      * intros name Hin Hsome.
        apply elem_of_cons in Hin as [->|Hin].
        -- rewrite Hm in Hsome. now destruct Hsome.
        -- now apply Hzero.
      * intros name Hnot. apply not_elem_of_cons in Hnot as [Hne Hrest].
        now apply Hother.
      * exact Hnone.
Qed.

Lemma init_maps_failed names : forall maps err,
  init_maps names maps = LoadFailed err ->
  exists mapName,
    err = ErrInitialize mapName /\ mapName ∈ names /\ put_ok mapName = false.
Proof.
  induction names as [|mapName rest IH]; intros maps err Hinit.
  - discriminate.
  - cbn [Load.init_maps] in Hinit.
    destruct (maps !! mapName) as [old|] eqn:Hm.
    + destruct (put_ok mapName) eqn:Hput.
      * destruct (IH _ _ Hinit) as (n & -> & Hin & Hn).
        exists n. split; [reflexivity|]. split; [now right|exact Hn].
      * injection Hinit as <-. exists mapName.
        split; [reflexivity|]. split; [now left|exact Hput].
    + destruct (IH _ _ Hinit) as (n & -> & Hin & Hn).
      exists n. split; [reflexivity|]. split; [now right|exact Hn].
Qed.

(** X25: [loadEBPF] uses the first of the three paths whose object file
    loads, and fails with the load error exactly when none does.  When it
    succeeds, every one of the six maps that the collection has holds 0 at
    key 0 and its [Put] succeeded, every other map is as [NewCollection]
    left it, and no map appears or disappears.  When initialisation fails,
    the error names one of the six maps, whose [Put] failed. *)
Theorem loadEBPF_initialises_maps :
  (forall maps',
     loadEBPF = Loaded maps' ->
     exists before path after spec maps,
       bpfPaths = before ++ path :: after
       /\ Forall (fun p => LoadCollectionSpec p = None) before
       /\ LoadCollectionSpec path = Some spec
       /\ NewCollection spec = Some maps
       /\ (forall name, name ∈ mapsToInit -> is_Some (maps !! name) ->
             maps' !! name = Some 0 /\ put_ok name = true)
       /\ (forall name, name ∉ mapsToInit -> maps' !! name = maps !! name)
       /\ (forall name, maps' !! name = None <-> maps !! name = None))
  /\ (loadEBPF = LoadFailed ErrLoadCollectionSpec <->
      Forall (fun path => LoadCollectionSpec path = None) bpfPaths)
  /\ (forall mapName,
        loadEBPF = LoadFailed (ErrInitialize mapName) ->
        mapName ∈ mapsToInit /\ put_ok mapName = false).
Proof.
  unfold Load.loadEBPF.
  destruct (load_first bpfPaths) as [spec|] eqn:Hload.
  - destruct (load_first_some _ _ Hload) as (before & path & after & Hp & Hb & Hl).
    assert (Hsome : ~ Forall (fun path => LoadCollectionSpec path = None) bpfPaths).
    { intros Hall. apply load_first_none in Hall. congruence. }
    destruct (NewCollection spec) as [maps|] eqn:Hnew.
    + split; [|split].
      * intros maps' Hinit.
        exists before, path, after, spec, maps.
        destruct (init_maps_loaded _ _ _ Hinit) as (Hzero & Hother & Hnone).
        repeat (split; [assumption|]). exact Hnone.
      * split; [|intros Hall; contradiction].
        intros Hinit. apply init_maps_failed in Hinit as (n & Hn & _).
        discriminate.
      * intros mapName Hinit.
        apply init_maps_failed in Hinit as (n & [= <-] & Hin & Hput).
        split; assumption.
    + split; [discriminate|]. split; [|discriminate].
      split; [discriminate|intros Hall; contradiction].
  - split; [discriminate|]. split; [|discriminate].
    split; [intros _; now apply load_first_none|reflexivity].
Qed.

End LoadEBPF.

End LoadFacts.
